(** * Nuts: version catalogue and update resolution

    A shallow embedding of [lib/versions.js] (tag normalisation, the sorted
    catalogue, filter / resolve / channels) and of the [onUpdate] handler of
    [lib/nuts.js], with the properties of the specification stated and
    settled against it.

    Conventions of the embedding.
    - A JavaScript string is a [string]; its characters stand for the code
      units of the source string.
    - A function that can throw returns a [completion]: [Normal v] or
      [Throw e].
    - A promise is identified with the completion it settles to; one call
      is followed to its end, with no interleaving.
    - Objects that are mutated through a shared reference (the options
      object handed to [filter]) live in an explicit heap.
    - Libraries outside the repository ([RegExp], [semver], [urljoin],
      [Date]) and the modules of the repository that are not part of the
      sources at hand ([utils/platforms], [utils/notes]) are parameters,
      gathered in the classes [VersionsDeps] and [NutsDeps]. *)

From Stdlib Require Import ZArith NArith Lia Ascii String.
From stdpp Require Import base option list sorting strings gmap pretty.

Local Open Scope string_scope.
Local Open Scope Z_scope.
Local Open Scope list_scope.

(** ** JavaScript values and completions *)

Module Js.

(** The values an option field or a library result can take here. *)
Inductive jsval :=
| JUndefined
| JNull
| JStr (s : string).

#[global] Instance jsval_eq_dec : EqDecision jsval.
Proof. solve_decision. Defined.

(** [ToBoolean]: undefined, null and the empty string are falsy. *)
Definition truthy (v : jsval) : bool :=
  match v with
  | JStr s => negb (String.eqb s "")
  | _ => false
  end.

(** [v == s] for a string [s]: neither null nor undefined is loosely equal
    to a string. *)
Definition loose_eq_str (v : jsval) (s : string) : bool :=
  match v with
  | JStr t => String.eqb t s
  | _ => false
  end.

(** [ToString], as performed by string concatenation. *)
Definition to_string (v : jsval) : string :=
  match v with
  | JUndefined => "undefined"
  | JNull => "null"
  | JStr s => s
  end.

(** [!s] for a value that is a string or undefined. *)
Definition falsy_str (o : option string) : bool :=
  match o with
  | Some s => String.eqb s ""
  | None => true
  end.

(** The errors the modelled code can raise. *)
Inductive exn :=
| SyntaxError (pattern : string)      (* new RegExp on an invalid pattern *)
| TypeError_null                      (* property read on null or undefined *)
| InvalidVersion (v : string)         (* semver: TypeError('Invalid Version: ' + v) *)
| RangeError_date                     (* toISOString on an invalid date *)
| Error (message : string).           (* new Error(message) *)

Inductive completion (A : Type) :=
| Normal (a : A)
| Throw (e : exn).
Arguments Normal {A} a.
Arguments Throw {A} e.

#[global] Instance completion_ret : MRet completion := @Normal.
#[global] Instance completion_bind : MBind completion :=
  fun A B f m => match m with Normal a => f a | Throw e => Throw e end.

(** [_.map] with a callback that may throw: the first exception ends it. *)
Fixpoint mapM {A B} (f : A → completion B) (l : list A) : completion (list B) :=
  match l with
  | [] => Normal []
  | x :: l' => y ← f x; ys ← mapM f l'; Normal (y :: ys)
  end.

(** [_.filter] with a predicate that may throw. *)
Fixpoint filterM {A} (p : A → completion bool) (l : list A) : completion (list A) :=
  match l with
  | [] => Normal []
  | x :: l' => b ← p x; r ← filterM p l'; Normal (if b : bool then x :: r else r)
  end.

(** [_.compact] on an array of objects and nulls. *)
Definition compact {A} (l : list (option A)) : list A := omap id l.

(** [s.split(sep)] for a one-character separator: the fields between the
    occurrences of [sep]; never empty ([''.split(sep)] is [['']]). *)
Fixpoint split (sep : ascii) (s : string) : list string :=
  match s with
  | EmptyString => [""]
  | String c s' =>
      if Ascii.eqb c sep then "" :: split sep s'
      else match split sep s' with
           | f :: fs => String c f :: fs
           | [] => [String c ""]
           end
  end.

(** [s.split(sep)[0]]. *)
Definition split_first (sep : ascii) (s : string) : string :=
  match split sep s with
  | f :: _ => f
  | [] => ""
  end.

(** [Array.prototype.sort] with a comparator that may throw. ECMAScript
    fixes the outcome for a consistent comparator (a sorted and, since
    ES2019, stable rearrangement) and leaves the sequence of comparator
    calls to the engine; the sources use optional chaining and named
    capture groups, so they run on an engine of that generation. The model
    is the stable insertion sort: each
    element, from the last to the first, is inserted in front of the
    already sorted elements that follow it and moves right past those it
    compares strictly greater than ([cmp x y > 0]). As in every comparison
    sort, an array of two or more elements has each of its elements
    compared at least once, and a shorter array has none compared. *)
Fixpoint insert_by {A} (cmp : A → A → completion Z) (x : A) (l : list A)
  : completion (list A) :=
  match l with
  | [] => Normal [x]
  | y :: l' =>
      c ← cmp x y;
      if 0 <? c then r ← insert_by cmp x l'; Normal (y :: r)
      else Normal (x :: y :: l')
  end.

Fixpoint Array_sort {A} (cmp : A → A → completion Z) (l : list A)
  : completion (list A) :=
  match l with
  | [] => Normal []
  | x :: l' => s ← Array_sort cmp l'; insert_by cmp x s
  end.

(** [Date] values are identified with their time value: [Some t] for [t]
    milliseconds since the epoch, [None] for an invalid date (NaN). The
    number [0] and the date of time value [0] compare alike and are both
    [Some 0]. [a < b] is false as soon as one side is NaN. *)
Definition time := option Z.

Definition lt_time (a b : time) : bool :=
  match a, b with
  | Some x, Some y => x <? y
  | _, _ => false
  end.

(** The property names every plain object inherits from
    [Object.prototype]; reading one of them on an object that has no own
    property of that name yields a function (or, for [__proto__], the
    prototype itself), which is truthy. *)
Definition Object_prototype_keys : list string :=
  [ "constructor"; "__defineGetter__"; "__defineSetter__"; "hasOwnProperty";
    "__lookupGetter__"; "__lookupSetter__"; "isPrototypeOf";
    "propertyIsEnumerable"; "toString"; "valueOf"; "__proto__";
    "toLocaleString" ].

Definition inherited (k : string) : bool :=
  bool_decide (k ∈ Object_prototype_keys).

(** The result of [String.prototype.match] with a non-global pattern: the
    matched text and the [groups] object, which is undefined when the
    pattern has no named group, and maps a named group that took no part in
    the match to undefined. *)
Record MatchResult := {
  matched : string;
  groups : option (gmap string (option string));
}.

(** [matches.groups?.version] *)
Definition groups_version (m : MatchResult) : option string :=
  g ← groups m; mjoin (g !! "version").

End Js.
Export Js.

(** ** lib/versions.js *)

Module Versions.

(** A parsed semantic version. Every string handed to [semver] by this
    module is a [tag], the first field of a split on the dash, so it holds
    no dash; the strict grammar introduces a pre-release only after a dash,
    and build metadata is ignored by precedence. What is left of a parsed
    tag is the numeric triple, compared by [compareMain]. *)
Record SemVer := { major : N; minor : N; patch : N }.

Definition compareMain (a b : SemVer) : comparison :=
  match N.compare (major a) (major b) with
  | Eq =>
      match N.compare (minor a) (minor b) with
      | Eq => N.compare (patch a) (patch b)
      | c => c
      end
  | c => c
  end.

(** What [versions.js] requires: the regular expressions of the engine, the
    [semver] package and [utils/platforms].
    - [RegExp_new p] is [new RegExp(p)], [None] when the pattern is
      rejected with a SyntaxError;
    - [RegExp_exec r s] is [s.match(r)] for the flag-less [r], [None] when
      there is no match; [r.test(s)] is true exactly when it is not [None];
    - [platforms_detect] and [platforms_satisfies] are the two functions of
      [utils/platforms];
    - [semver_parse s] is [new SemVer(s)], [None] when it throws;
    - [semver_satisfies v range] is [semver.satisfies(v, range)]. *)
Class VersionsDeps := {
  RegExp : Type;
  RegExp_new : string → option RegExp;
  RegExp_exec : RegExp → string → option MatchResult;
  platforms_detect : string → jsval;
  platforms_satisfies : string → list string → bool;
  semver_parse : string → option SemVer;
  semver_satisfies : string → jsval → completion bool;
}.

(** A release as the backend hands it over. [r_published_at] is the time
    value [new Date(release.published_at)] has. *)
Record RawAsset := {
  asset_id : Z;
  asset_name : string;
  asset_size : Z;
  asset_content_type : string;
  asset_download_count : Z;
}.

Record Release := {
  tag_name : string;
  draft : bool;
  r_published_at : time;
  body : jsval;
  assets : list RawAsset;
}.

Record Asset := {
  a_id : string;
  a_type : string;
  a_filename : string;
  a_size : Z;
  a_content_type : string;
  a_raw : RawAsset;
}.

Record Version := {
  version : string;
  tag : string;
  channel : string;
  notes : string;
  published_at : time;
  platforms : list Asset;
}.

(** The options object of [filter] and [resolve]; a missing property reads
    as undefined. *)
Record Options := {
  o_tag : jsval;
  o_platform : jsval;
  o_channel : jsval;
}.

Definition empty_object : Options :=
  {| o_tag := JUndefined; o_platform := JUndefined; o_channel := JUndefined |}.

(** Objects are reached through references; [None] is an argument that is
    undefined or null. A reference is never dangling: a location outside
    the heap reads as the empty object. *)
Abbreviation loc := nat.
Abbreviation heap := (gmap nat Options).

Definition deref (h : heap) (l : loc) : Options :=
  default empty_object (h !! l).

Definition alloc (o : Options) (h : heap) : loc * heap :=
  let l := fresh (dom h) in (l, <[l := o]> h).

(** The catalogue object: the releases its backend answers with, and the
    tag filter. *)
Record Versions := {
  backend_releases : list Release;
  tagNameFilter : option string;
}.

(** Channel summary built by [channels]. *)
Record Summary := {
  latest : option string;
  versions_count : Z;
  s_published_at : time;
}.

Section Code.
Context {deps : VersionsDeps}.

Definition new_RegExp (p : string) : completion RegExp :=
  match RegExp_new p with
  | Some r => Normal r
  | None => Throw (SyntaxError p)
  end.

Definition strip_v (tag : string) : string :=
  match tag with
  | String "v" rest => rest
  | _ => tag
  end.

Definition normalizeTag (tag : string) (tagNameFilter : option string)
  : completion string :=
  if negb (falsy_str tagNameFilter) then
    regex ← new_RegExp (default "" tagNameFilter);
    match RegExp_exec regex tag with
    | None => Throw TypeError_null          (* matches.length on null *)
    | Some matches =>
        (* matches.length < 0 never holds *)
        match groups_version matches with
        | Some v => if String.eqb v "" then Normal tag else Normal v
        | None => Normal tag
        end
    end
  else Normal (strip_v tag).

Definition getSuffix (str : string) : string :=
  match split "-" str !! 1%nat with
  | Some suffix =>
      if String.eqb suffix "" then "stable" else split_first "." suffix
  | None => "stable"
  end.

Definition extractChannel (tag : string) (tagNameFilter : option string)
  : completion string :=
  if falsy_str tagNameFilter then Normal (getSuffix tag)
  else
    regex ← new_RegExp (default "" tagNameFilter);
    match RegExp_exec regex tag with
    | None => Throw TypeError_null          (* matches.length on null *)
    | Some matches =>
        match groups_version matches with
        | Some v => if String.eqb v "" then Normal "stable" else Normal (getSuffix v)
        | None => Normal "stable"
        end
    end.

(** The asset callback of [normalizeVersion]. The running [downloadCount]
    it also updates is never read afterwards. *)
Definition normalizeAsset (asset : RawAsset) : option Asset :=
  let platform := platforms_detect (asset_name asset) in
  if negb (truthy platform) then None
  else Some {| a_id := pretty (asset_id asset);
               a_type := to_string platform;
               a_filename := asset_name asset;
               a_size := asset_size asset;
               a_content_type := asset_content_type asset;
               a_raw := asset |}.

Definition normalizeVersion (release : Release) (tagNameFilter : option string)
  : completion (option Version) :=
  if draft release then Normal None
  else
    pass ← (if negb (falsy_str tagNameFilter) then
              regex ← new_RegExp (default "" tagNameFilter);
              Normal (bool_decide (is_Some (RegExp_exec regex (tag_name release))))
            else Normal true);
    if negb pass then Normal None
    else
      let releasePlatforms := compact (map normalizeAsset (assets release)) in
      v ← normalizeTag (tag_name release) tagNameFilter;
      t ← normalizeTag (tag_name release) tagNameFilter;
      c ← extractChannel (tag_name release) tagNameFilter;
      Normal (Some {| version := v;
                      tag := split_first "-" t;
                      channel := c;
                      notes := (if truthy (body release)
                                then to_string (body release) else "");
                      published_at := r_published_at release;
                      platforms := releasePlatforms |}).

(** [semver.compare(a, b)]: [a] is parsed, then [b]. *)
Definition semver_compare (a b : string) : completion comparison :=
  match semver_parse a with
  | None => Throw (InvalidVersion a)
  | Some x =>
      match semver_parse b with
      | None => Throw (InvalidVersion b)
      | Some y => Normal (compareMain x y)
      end
  end.

Definition semver_gt (a b : string) : completion bool :=
  c ← semver_compare a b; Normal (bool_decide (c = Gt)).

Definition semver_lt (a b : string) : completion bool :=
  c ← semver_compare a b; Normal (bool_decide (c = Lt)).

Definition compareVersions (v1 v2 : Version) : completion Z :=
  gt ← semver_gt (tag v1) (tag v2);
  if gt : bool then Normal (-1)
  else
    lt ← semver_lt (tag v1) (tag v2);
    if lt : bool then Normal 1 else Normal 0.

Definition Versions_list (this : Versions) : completion (list Version) :=
  vs ← mapM (λ r, normalizeVersion r (tagNameFilter this)) (backend_releases this);
  Array_sort compareVersions (compact vs).

(** [_.defaults(opts, {tag: 'latest', platform: null, channel: 'stable'})]:
    a property that reads as undefined takes the default. *)
Definition defaults (o : Options) : Options :=
  {| o_tag := match o_tag o with JUndefined => JStr "latest" | v => v end;
     o_platform := match o_platform o with JUndefined => JNull | v => v end;
     o_channel := match o_channel o with JUndefined => JStr "stable" | v => v end |}.

(** [if (opts.platform) opts.platform = platforms.detect(opts.platform)] *)
Definition detect_platform (o : Options) : Options :=
  if truthy (o_platform o) then
    {| o_tag := o_tag o;
       o_platform := platforms_detect (to_string (o_platform o));
       o_channel := o_channel o |}
  else o.

(** The predicate [filter] applies to each version. *)
Definition keep (opts : Options) (v : Version) : completion bool :=
  if negb (loose_eq_str (o_channel opts) "*")
     && negb (loose_eq_str (o_channel opts) (channel v))
  then Normal false
  else if truthy (o_platform opts)
          && negb (platforms_satisfies (to_string (o_platform opts))
                                       (map a_type (platforms v)))
  then Normal false
  else if loose_eq_str (o_tag opts) "latest" then Normal true
  else semver_satisfies (tag v) (o_tag opts).

(** [filter(opts)]: the defaults and the detected platform are written
    into the object [opts] refers to, or into a fresh object when [opts] is
    undefined; the heap that results is returned beside the completion. *)
Definition Versions_filter (this : Versions) (opts : option loc) (h : heap)
  : heap * completion (list Version) :=
  let '(l, h0) := match opts with
                  | Some l => (l, h)
                  | None => alloc empty_object h
                  end in
  let h1 := <[l := defaults (deref h0 l)]> h0 in
  let h2 := <[l := detect_platform (deref h1 l)]> h1 in
  (h2, versions ← Versions_list this; filterM (keep (deref h2 l)) versions).

(** [resolve(opts)]: the error message reads [opts.tag] through the
    caller's own reference, after [filter] has run. *)
Definition Versions_resolve (this : Versions) (opts : option loc) (h : heap)
  : heap * completion Version :=
  let '(h', r) := Versions_filter this opts h in
  (h', versions ← r;
       match versions with
       | v :: _ => Normal v
       | [] =>
           match opts with
           | Some l => Throw (Error ("Version not found: " +:+ to_string (o_tag (deref h' l))))
           | None => Throw TypeError_null      (* opts.tag on undefined *)
           end
       end).

Definition get (this : Versions) (t : string) (h : heap) : heap * completion Version :=
  let '(l, h0) := alloc {| o_tag := JStr t; o_platform := JUndefined;
                           o_channel := JUndefined |} h in
  Versions_resolve this (Some l) h0.

(** The body of the [_.each] of [channels]. [channels[c]] reads the own
    property when there is one; otherwise, for an inherited name, it reads
    the inherited value, which is truthy: no summary is created, the
    counter is written onto the inherited object (as NaN) and the
    comparison of its missing [published_at] is false, so the own
    properties of [channels] are left as they are. *)
Definition channels_step (channels : gmap string Summary) (v : Version)
  : gmap string Summary :=
  let c := channel v in
  if bool_decide (channels !! c = None) && inherited c then channels
  else
    let s0 := default {| latest := None; versions_count := 0;
                         s_published_at := Some 0 |} (channels !! c) in
    let s1 := {| latest := latest s0; versions_count := versions_count s0 + 1;
                 s_published_at := s_published_at s0 |} in
    let s2 := if lt_time (s_published_at s1) (published_at v)
              then {| latest := Some (tag v); versions_count := versions_count s1;
                      s_published_at := published_at v |}
              else s1 in
    <[c := s2]> channels.

Definition Versions_channels (this : Versions) : completion (gmap string Summary) :=
  versions ← Versions_list this;
  Normal (fold_left channels_step versions ∅).

End Code.
End Versions.

(** ** lib/nuts.js: the Squirrel.Mac update handler *)

Module Nuts.
Import Versions.

(** What [onUpdate] requires beyond the catalogue: [notes.merge] of
    [utils/notes] (with its [includeTag] option), [urljoin], and
    [Date.prototype.toISOString] on a valid time value. *)
Class NutsDeps := {
  notes_merge : list Version → bool → string;
  urljoin : list string → string;
  toISOString : Z → string;
}.

(** The parts of the request [onUpdate] reads. The route binds [platform]
    and [version]; [channel] and the [filetype] query are optional. *)
Record Request := {
  fullUrl : string;
  params_platform : string;
  params_channel : option string;
  params_version : string;
  query_filetype : option string;
}.

Record UpdateInfo := {
  u_url : string;
  u_name : string;
  u_notes : string;
  u_channel : string;
  u_pub_date : string;
}.

Inductive Response :=
| Status204 (text : string)
| Status200 (info : UpdateInfo).

Definition dquote : string := String (ascii_of_nat 34) EmptyString.

Definition requires (param : string) : exn :=
  Error ("Requires " +:+ dquote +:+ param +:+ dquote +:+ " parameter").

(** [versions.slice(0, -1)]: all but the last element. *)
Definition slice_0_m1 {A} (l : list A) : list A := take (length l - 1) l.

Section Code.
Context {deps : VersionsDeps} {nuts_deps : NutsDeps}.

(** The second [then] of [onUpdate], on the versions [filter] gave. *)
Definition update_response (req : Request) (platform : jsval)
    (channel tag filetype : string) (versions : list Version)
  : completion Response :=
  match versions with
  | [] => Normal (Status204 "No updates")
  | latest :: _ =>
      if String.eqb (Versions.tag latest) tag then Normal (Status204 "No updates")
      else
        let notesSlice :=
          if (length versions =? 1)%nat then take 1 versions
          else slice_0_m1 versions in
        let releaseNotes := notes_merge notesSlice false in
        let gitFilePath :=
          if String.eqb channel "*" then "/../../../" else "/../../../../../" in
        let url :=
          urljoin [fullUrl req; gitFilePath;
                   "/download/channel/" +:+ channel +:+ "/" +:+ to_string platform
                     +:+ "?filetype=" +:+ filetype] in
        match published_at latest with
        | None => Throw RangeError_date
        | Some t =>
            Normal (Status200 {| u_url := url;
                                 u_name := Versions.tag latest;
                                 u_notes := releaseNotes;
                                 u_channel := channel;
                                 u_pub_date := toISOString t |})
        end
  end.

Definition onUpdate (versions : Versions) (req : Request) (h : heap)
  : heap * completion Response :=
  let platform := params_platform req in
  let channel := if falsy_str (params_channel req) then "*"
                 else default "" (params_channel req) in
  let tag := split_first "-" (params_version req) in
  let filetype := if falsy_str (query_filetype req) then "zip"
                  else default "" (query_filetype req) in
  if String.eqb tag "" then (h, Throw (requires "version"))
  else if String.eqb platform "" then (h, Throw (requires "platform"))
  else
    let platform := platforms_detect platform in
    let '(l, h0) := alloc {| o_tag := JStr (">=" +:+ tag);
                             o_platform := platform;
                             o_channel := JStr channel |} h in
    let '(h1, r) := Versions_filter versions (Some l) h0 in
    (h1, vs ← r; update_response req platform channel tag filetype vs).

End Code.
End Nuts.

(** ** A concrete environment

    One instance of the parameters, on which the examples are evaluated:
    each function is defined on a fragment of its domain, where it agrees
    with the library it stands for. *)

Module Sample.
Import Versions Nuts.

(** The only pattern of the examples: a leading [v], then the named group
    [version] holding any run of characters up to the end of the tag. It
    matches a tag that starts with [v] and goes on without a line
    terminator, and binds the rest to the group. Other patterns are
    rejected. *)
Definition pattern_v : string := "^v(?<version>.*" +:+ ")$".

Fixpoint no_line_terminator (s : string) : bool :=
  match s with
  | EmptyString => true
  | String c s' =>
      negb (Ascii.eqb c (ascii_of_nat 10)) && negb (Ascii.eqb c (ascii_of_nat 13))
      && no_line_terminator s'
  end.

Definition sample_RegExp_new (p : string) : option unit :=
  if String.eqb p pattern_v then Some tt else None.

Definition sample_RegExp_exec (_ : unit) (s : string) : option MatchResult :=
  match s with
  | String "v" rest =>
      if no_line_terminator rest
      then Some {| matched := s; groups := Some {[ "version" := Some rest ]} |}
      else None
  | _ => None
  end.

(** [MAJOR.MINOR.PATCH] of the strict semver grammar: three decimal
    numerals without leading zero. *)
Definition digit (c : ascii) : option N :=
  let n := N_of_ascii c in
  if ((48 <=? n) && (n <=? 57))%N then Some (n - 48)%N else None.

Fixpoint digits (acc : N) (s : string) : option N :=
  match s with
  | EmptyString => Some acc
  | String c s' => d ← digit c; digits (10 * acc + d)%N s'
  end.

Definition numeral (s : string) : option N :=
  match s with
  | EmptyString => None
  | String "0" (String _ _) => None
  | _ => digits 0%N s
  end.

Definition sample_parse (s : string) : option SemVer :=
  match split "." s with
  | [a; b; c] =>
      x ← numeral a; y ← numeral b; z ← numeral c;
      Some {| major := x; minor := y; patch := z |}
  | _ => None
  end.

(** Ranges of the form [>=MAJOR.MINOR.PATCH]; anything else is taken as an
    invalid range, for which [semver.satisfies] answers false. *)
Definition sample_satisfies (v : string) (range : jsval) : completion bool :=
  match range with
  | JStr (String ">" (String "=" lo)) =>
      match sample_parse lo with
      | None => Normal false
      | Some l =>
          match sample_parse v with
          | None => Throw (InvalidVersion v)
          | Some x => Normal (bool_decide (compareMain x l ≠ Lt))
          end
      end
  | _ => Normal false
  end.

Definition has_suffix (suffix s : string) : bool :=
  String.prefix (String.rev suffix) (String.rev s).

(** Modelled from the spec: [utils/platforms] is not among the sources;
    section 4.3 has [detect] map [.dmg] to macOS and [.exe] to Windows and
    answer null for a name it does not recognise, and has [satisfies] hold
    when the requested platform is present in the available set. The
    identifiers themselves are detected as themselves. *)
Definition sample_detect (name : string) : jsval :=
  if has_suffix ".dmg" name || String.eqb name "osx_64" then JStr "osx_64"
  else if has_suffix ".exe" name || String.eqb name "windows_32" then JStr "windows_32"
  else JNull.

(** Modelled from the spec: [satisfies] of [utils/platforms], as far as
    section 4.3 fixes it: the requested platform is among the available
    ones. *)
Definition sample_platform_satisfies (p : string) (available : list string) : bool :=
  bool_decide (p ∈ available).

#[local] Instance sample_deps : VersionsDeps := {|
  RegExp := unit;
  RegExp_new := sample_RegExp_new;
  RegExp_exec := sample_RegExp_exec;
  platforms_detect := sample_detect;
  platforms_satisfies := sample_platform_satisfies;
  semver_parse := sample_parse;
  semver_satisfies := sample_satisfies;
|}.

(** Modelled from the spec: [utils/notes] is not among the sources; section
    4.5 has the merge concatenate the notes of the versions it is given, in
    their order. *)
Definition sample_merge (versions : list Version) (includeTag : bool) : string :=
  foldr (λ v acc, notes v +:+ acc) "" versions.

#[local] Instance sample_nuts_deps : NutsDeps := {|
  notes_merge := sample_merge;
  urljoin := foldr String.append "";
  toISOString := pretty;
|}.

Definition release (t : string) (published : Z) (text : string)
    (files : list string) : Release :=
  {| tag_name := t; draft := false; r_published_at := Some published;
     body := JStr text;
     assets := map (λ n, {| asset_id := 1; asset_name := n; asset_size := 0;
                            asset_content_type := "application/octet-stream";
                            asset_download_count := 0 |}) files |}.

Definition catalogue (rs : list Release) : Versions :=
  {| backend_releases := rs; tagNameFilter := None |}.

(** The catalogue of section 8 of the specification: a beta of 2.0.0 and a
    stable 1.0.0, both with a macOS image. *)
Definition scenario : Versions :=
  catalogue [release "v2.0.0-beta.1" 20 "B" ["app-darwin.dmg"];
             release "v1.0.0" 10 "A" ["app-darwin.dmg"]].

(** One release whose tag is not a semantic version. *)
Definition nightly_only : Versions := catalogue [release "nightly" 10 "N" []].

(** Two releases, one of them malformed. *)
Definition nightly_and_stable : Versions :=
  catalogue [release "nightly" 10 "N" []; release "v1.0.0" 20 "A" []].

(** One release published at the epoch itself. *)
Definition epoch_only : Versions := catalogue [release "v1.0.0" 0 "A" []].

(** A catalogue from which 1.0.0 is gone: only 3.0.0 and 2.0.0 are left,
    and a client that still runs 1.0.0 asks for an update. *)
Definition two_newer : Versions :=
  catalogue [release "v3.0.0" 30 "C" ["app.dmg"];
             release "v2.0.0" 20 "B" ["app.dmg"]].

Definition update_from_1 : Request :=
  {| fullUrl := "http://host/update/osx_64/1.0.0";
     params_platform := "osx_64";
     params_channel := None;
     params_version := "1.0.0";
     query_filetype := None |}.

Definition sample_version (t c text : string) (published : Z) : Version :=
  {| version := t; tag := t; channel := c; notes := text;
     published_at := Some published; platforms := [] |}.

End Sample.

(** ** Vocabulary of the specification *)

Module Props.
Import Versions Nuts.

#[global] Instance exn_eq_dec : EqDecision exn.
Proof. solve_decision. Defined.

#[global] Instance completion_eq_dec {A} `{EqDecision A} : EqDecision (completion A).
Proof. solve_decision. Defined.

Section Defs.
Context {deps : VersionsDeps}.

(** The tag is a semantic version. *)
Definition parses (t : string) : Prop := is_Some (semver_parse t).

(** [a] has a tag of greater or equal precedence than [b]'s. *)
Definition semver_gte (a b : Version) : Prop :=
  ∃ x y, semver_parse (tag a) = Some x ∧ semver_parse (tag b) = Some y
         ∧ compareMain x y ≠ Lt.

(** [a]'s tag is of strictly lower precedence than [b]'s. *)
Definition semver_older (a b : Version) : Prop :=
  ∃ x y, semver_parse (tag a) = Some x ∧ semver_parse (tag b) = Some y
         ∧ compareMain x y = Lt.

(** The version's tag is semver-equal to [t]. *)
Definition same_precedence (t : string) (v : Version) : bool :=
  match semver_parse t, semver_parse (tag v) with
  | Some x, Some y => bool_decide (compareMain x y = Eq)
  | _, _ => false
  end.

(** Newest first. *)
Definition descending (l : list Version) : Prop := StronglySorted semver_gte l.

(** The versions of [out] that share a precedence come in the order they
    have in [input]. *)
Definition stable (input out : list Version) : Prop :=
  ∀ t, List.filter (same_precedence t) out = List.filter (same_precedence t) input.

(** The releases of the catalogue that are not excluded, normalised, in
    the order of the backend. *)
Definition normalized (this : Versions) : completion (list Version) :=
  vs ← mapM (λ r, normalizeVersion r (tagNameFilter this)) (backend_releases this);
  Normal (compact vs).

(** *** Channels, in the words of the specification *)

(** The text after the first occurrence of [sep], if there is one. *)
Fixpoint after (sep : ascii) (s : string) : option string :=
  match s with
  | EmptyString => None
  | String c s' => if Ascii.eqb c sep then Some s' else after sep s'
  end.

(** The text up to the first character on which [stop] holds. *)
Fixpoint until (stop : ascii → bool) (s : string) : string :=
  match s with
  | EmptyString => ""
  | String c s' => if stop c then "" else String c (until stop s')
  end.

Definition is_dash (c : ascii) : bool := Ascii.eqb c "-".
Definition is_dot (c : ascii) : bool := Ascii.eqb c ".".

(** The channel as the specification has it: never empty; "stable" when
    the version string has no dash; otherwise the text after the first
    dash, up to the next dot. *)
Definition channel_as_claimed (s c : string) : Prop :=
  c ≠ "" ∧
  match after "-" s with
  | None => c = "stable"
  | Some rest => c = until is_dot rest
  end.

(** The channel as the code computes it by design: "stable" when there is
    no dash, or when the first dash ends the string or is followed at once
    by another dash; otherwise the text after the first dash up to the next
    dot or dash, which is not empty. Nothing is said of a dash followed at
    once by a dot. *)
Definition channel_by_design (s c : string) : Prop :=
  match after "-" s with
  | None => c = "stable"
  | Some EmptyString => c = "stable"
  | Some (String a _ as rest) =>
      if is_dash a then c = "stable"
      else if is_dot a then True
      else c = until (λ b, is_dot b || is_dash b) rest ∧ c ≠ ""
  end.

(** *** Filtering, in the words of the specification *)

(** The options [filter] works with: those of the caller (none when the
    argument is undefined) with the defaults merged over the missing
    fields, and the platform resolved by [platforms.detect]. *)
Definition requested (opts : option loc) (h : heap) : Options :=
  detect_platform
    (defaults (match opts with Some l => deref h l | None => empty_object end)).

Definition returns_true (c : completion bool) : bool :=
  match c with
  | Normal true => true
  | _ => false
  end.

(** The three conditions: the requested channel is the wildcard or the
    version's channel; no platform is requested or the platforms of the
    version's assets satisfy it; the requested tag is "latest" or the
    version's tag satisfies it as a range. *)
Definition selected (o : Options) (v : Version) : bool :=
  (loose_eq_str (o_channel o) "*" || loose_eq_str (o_channel o) (channel v))
  && (negb (truthy (o_platform o))
      || platforms_satisfies (to_string (o_platform o)) (map a_type (platforms v)))
  && (loose_eq_str (o_tag o) "latest"
      || returns_true (semver_satisfies (tag v) (o_tag o))).

(** The object literal [{tag: 'latest'}]. *)
Definition tag_latest : Options :=
  {| o_tag := JStr "latest"; o_platform := JUndefined; o_channel := JUndefined |}.

(** *** Channel summaries, in the words of the specification *)

(** The number of versions of the channel. *)
Definition count_channel (c : string) (vs : list Version) : Z :=
  Z.of_nat (length (List.filter (λ v, String.eqb (channel v) c) vs)).

(** [w] is a version of the channel with the maximum [published_at]. *)
Definition latest_published (c : string) (vs : list Version) (w : Version) : Prop :=
  w ∈ vs ∧ channel w = c
  ∧ ∀ v, v ∈ vs → channel v = c → lt_time (published_at w) (published_at v) = false.

(** The map as the specification has it: every channel of the list has a
    summary with the count of its versions and the tag of its most recently
    published version. *)
Definition channels_as_claimed (vs : list Version) (m : gmap string Summary) : Prop :=
  ∀ c, c ∈ map channel vs →
    ∃ s, m !! c = Some s ∧ versions_count s = count_channel c vs
         ∧ ∃ w, latest_published c vs w ∧ latest s = Some (tag w).

(** The summary as the code builds it: the count of the versions of the
    channel, and
    - no [latest] (and the initial timestamp) when no version of the
      channel is published after the epoch,
    - otherwise the tag and timestamp of the first version of the channel,
      in the order of the list, that has the maximum [published_at]. *)
Definition summarises (c : string) (vs : list Version) (s : Summary) : Prop :=
  versions_count s = count_channel c vs
  ∧ ((latest s = None ∧ s_published_at s = Some 0
      ∧ ∀ v, v ∈ vs → channel v = c → lt_time (Some 0) (published_at v) = false)
     ∨ (∃ l1 w l2, vs = l1 ++ w :: l2 ∧ channel w = c
          ∧ latest s = Some (tag w) ∧ s_published_at s = published_at w
          ∧ lt_time (Some 0) (published_at w) = true
          ∧ (∀ v, v ∈ vs → channel v = c →
               lt_time (published_at w) (published_at v) = false)
          ∧ (∀ v, v ∈ l1 → channel v = c → published_at v ≠ published_at w))).

(** *** The query, in the words of the specification *)

(** The options object the caller handed over: the object its reference
    leads to, or an object without properties when there is none. *)
Definition supplied (opts : option loc) (h : heap) (o : Options) : Prop :=
  match opts with
  | Some l => h !! l = Some o
  | None => o = empty_object
  end.

(** A field, or its default when the field is missing. *)
Definition or_default (field default_value : jsval) : jsval :=
  match field with
  | JUndefined => default_value
  | _ => field
  end.

(** The tag asked for: "latest" unless one is given. *)
Definition wanted_tag (o : Options) : jsval := or_default (o_tag o) (JStr "latest").

(** The channel asked for: "stable" unless one is given. *)
Definition wanted_channel (o : Options) : jsval :=
  or_default (o_channel o) (JStr "stable").

(** The platform asked for: null unless one is given; a platform given as
    a non-empty string is resolved by [platforms.detect]. *)
Definition wanted_platform (o : Options) : jsval :=
  match or_default (o_platform o) JNull with
  | JStr "" => JStr ""
  | JStr name => platforms_detect name
  | other => other
  end.

(** The three conditions on a version. *)
Definition channel_condition (o : Options) (v : Version) : Prop :=
  wanted_channel o = JStr "*" ∨ wanted_channel o = JStr (channel v).

Definition platform_condition (o : Options) (v : Version) : Prop :=
  truthy (wanted_platform o) = false
  ∨ platforms_satisfies (to_string (wanted_platform o)) (map a_type (platforms v)) = true.

Definition tag_condition (o : Options) (v : Version) : Prop :=
  wanted_tag o = JStr "latest" ∨ semver_satisfies (tag v) (wanted_tag o) = Normal true.

Definition meets (o : Options) (v : Version) : Prop :=
  channel_condition o v ∧ platform_condition o v ∧ tag_condition o v.

#[global] Instance meets_dec (o : Options) (v : Version) : Decision (meets o v).
Proof.
  unfold meets, channel_condition, platform_condition, tag_condition. apply _.
Defined.

(** *** Release notes, in the words of the specification *)

(** The versions strictly newer than the client's [current] version. *)
Definition strictly_newer (current : string) (vs : list Version) : list Version :=
  List.filter (λ v, match semver_compare (tag v) current with
                    | Normal Gt => true
                    | _ => false
                    end) vs.

End Defs.
End Props.

(** ** lib/nuts.js: the other handlers that query the catalogue *)

Module Handlers.
Import Versions Nuts.

(** The feed [onServeVersionsFeed] builds: its header and its items. *)
Record FeedInfo := {
  feed_id : string;
  feed_title : string;
  feed_link : string;
}.

Record FeedItem := {
  f_title : string;
  f_link : string;
  f_description : string;
  f_date : time;
}.

(** What the download and feed handlers require beyond [NutsDeps]: the
    platform identifiers [utils/platforms] exports, its [resolve], and the
    rendering of the [feed] package. *)
Class HandlerDeps := {
  OSX : string;
  WINDOWS : string;
  LINUX : string;
  LINUX_64 : string;
  platforms_resolve : Version → jsval → option string → option Asset;
  Feed_render : FeedInfo → list FeedItem → string;
}.

(** A route parameter or query field: a string, or undefined. *)
Definition param (o : option string) : jsval :=
  match o with
  | Some s => JStr s
  | None => JUndefined
  end.

(** The parts of the request [onDownload] reads: the route parameters, the
    [filetype] query and four flags of the parsed user agent. *)
Record DownloadRequest := {
  dl_channel : option string;
  dl_platform : option string;
  dl_tag : option string;
  dl_filename : option string;
  dl_filetype : option string;
  isMac : bool;
  isWindows : bool;
  isLinux : bool;
  isLinux64 : bool;
}.

(** What [res.format] settles on for the two types [onServeNotes] offers:
    one of them, or neither. *)
Inductive Negotiated :=
| TextPlain
| ApplicationJson
| NotAcceptable.

Inductive NotesBody :=
| NotesText (text : string)
| NotesJson (merged pub_date : string).

(** What a handler hands to [next]: an exception of the catalogue or of
    the handler itself, or the ReferenceError of a name that is not
    bound. *)
Inductive failure :=
| Raised (e : exn)
| ReferenceError (name : string).

Inductive reply (A : Type) :=
| Sent (a : A)
| Next (err : failure).
Arguments Sent {A} a.
Arguments Next {A} err.

Section Code.
Context {deps : VersionsDeps} {nuts_deps : NutsDeps} {handler_deps : HandlerDeps}.

(** [list()] seen from its caller, with the promise [backend.releases()]
    returns: when that promise is rejected, [list()] is rejected with the
    same reason; when it is fulfilled, the releases go through
    [Versions_list]. *)
Definition list_on (releases : completion (list Release)) (tagNameFilter : option string)
  : completion (list Version) :=
  rs ← releases;
  Versions_list {| backend_releases := rs; tagNameFilter := tagNameFilter |}.

(** The four tests of the user agent, in the order of the source: the last
    flag that is set decides. *)
Definition useragent_platform (req : DownloadRequest) (platform : jsval) : jsval :=
  let p1 := if isMac req then JStr OSX else platform in
  let p2 := if isWindows req then JStr WINDOWS else p1 in
  let p3 := if isLinux req then JStr LINUX else p2 in
  if isLinux64 req then JStr LINUX_64 else p3.

(** [_.find(version.platforms, {filename: filename})] *)
Definition find_filename (filename : string) (l : list Asset) : option Asset :=
  List.find (λ a, String.eqb (a_filename a) filename) l.

Definition no_download (platform : jsval) (version : Version) (channel : jsval) : exn :=
  Error ("No download available for platform " +:+ to_string platform
         +:+ " for version " +:+ tag version
         +:+ " (" +:+ (if truthy channel then to_string channel else "beta") +:+ ")").

(** [onDownload]. A normal completion stands for the call
    [serveAsset(req, res, version, asset)] it ends with. The options
    object is a fresh one; [filter] rewrites its platform, the local
    [platform] keeps the value it had. *)
Definition onDownload (versions : Versions) (req : DownloadRequest) (h : heap)
  : heap * completion (Version * Asset) :=
  let channel := param (dl_channel req) in
  let platform := param (dl_platform req) in
  let tag := if falsy_str (dl_tag req) then "latest" else default "" (dl_tag req) in
  let filename := param (dl_filename req) in
  let platform :=
    if negb (truthy filename) then
      (if negb (truthy platform) then useragent_platform req platform else platform)
    else JNull in
  if negb (truthy filename) && negb (truthy platform) then
    (h, Throw (Error "No platform specified and impossible to detect one"))
  else
    let channel := if negb (String.eqb tag "latest") then JStr "*" else channel in
    let '(l, h0) := alloc {| o_tag := JStr tag; o_platform := platform;
                             o_channel := channel |} h in
    let '(h1, r) := Versions_resolve versions (Some l) h0 in
    (h1, version ← r;
         let asset :=
           if truthy filename
           then find_filename (to_string filename) (platforms version)
           else platforms_resolve version platform
                  (if falsy_str (dl_filetype req) then None
                   else Some ("." +:+ default "" (dl_filetype req))) in
         match asset with
         | None => Throw (no_download platform version channel)
         | Some a => Normal (version, a)
         end).

(** [onServeNotes], for the optional [version] parameter of the route. *)
Definition onServeNotes (versions : Versions) (version_param : option string)
    (accepted : Negotiated) (h : heap) : heap * reply NotesBody :=
  let tag := version_param in
  let '(l, h0) :=
    alloc {| o_tag := JStr (if falsy_str tag then "*" else ">=" +:+ default "" tag);
             o_platform := JUndefined;
             o_channel := JStr "*" |} h in
  let '(h1, r) := Versions_filter versions (Some l) h0 in
  (h1, match r with
       | Throw e => Next (Raised e)
       | Normal vs =>
           match vs with
           | [] => Next (Raised (Error "No versions matching"))
           | latest :: _ =>
               match accepted with
               | TextPlain => Sent (NotesText (notes_merge vs true))
               | ApplicationJson =>
                   let merged := notes_merge vs false in
                   match published_at latest with
                   | Some t => Sent (NotesJson merged (toISOString t))
                   | None => Next (Raised RangeError_date)
                   end
               | NotAcceptable => Next (ReferenceError "releaseNotes")
               end
           end
       end).

(** The item [onServeVersionsFeed] adds for a version. *)
Definition feed_item (fullUrl : string) (v : Version) : FeedItem :=
  {| f_title := tag v;
     f_link := urljoin [fullUrl; "/../../../"; "/download/version/" +:+ tag v];
     f_description := notes v;
     f_date := published_at v |}.

(** [onServeVersionsFeed]: the items added to the feed, in order, and the
    rendered document. *)
Definition feed_items (versions : Versions) (fullUrl : string)
    (channel_param : option string) (h : heap) : heap * completion (list FeedItem) :=
  let channel := if falsy_str channel_param then "all" else default "" channel_param in
  let channelId := if String.eqb channel "all" then "*" else channel in
  let '(l, h0) := alloc {| o_tag := JUndefined; o_platform := JUndefined;
                           o_channel := JStr channelId |} h in
  let '(h1, r) := Versions_filter versions (Some l) h0 in
  (h1, vs ← r; Normal (map (feed_item fullUrl) vs)).

Definition onServeVersionsFeed (versions : Versions) (fullUrl : string)
    (channel_param : option string) (h : heap) : heap * completion string :=
  let channel := if falsy_str channel_param then "all" else default "" channel_param in
  let feed := {| feed_id := "versions/channels/" +:+ channel;
                 feed_title := "Versions (" +:+ channel +:+ ")";
                 feed_link := fullUrl |} in
  let '(h1, r) := feed_items versions fullUrl channel_param h in
  (h1, items ← r; Normal (Feed_render feed items)).

End Code.
End Handlers.

(** ** Vocabulary for the further properties *)

Module Props2.
Import Versions Nuts Handlers.

(** The character occurs in the string. *)
Fixpoint occurs (c : ascii) (s : string) : bool :=
  match s with
  | EmptyString => false
  | String a s' => Ascii.eqb a c || occurs c s'
  end.

(** The catalogue without its draft releases. *)
Definition without_drafts (this : Versions) : Versions :=
  {| backend_releases := List.filter (λ r, negb (draft r)) (backend_releases this);
     tagNameFilter := tagNameFilter this |}.

(** The catalogue restricted to the releases whose tag the compiled
    filter matches. *)
Definition only_matching {deps : VersionsDeps} (regex : RegExp) (this : Versions)
  : Versions :=
  {| backend_releases :=
       List.filter (λ r, bool_decide (is_Some (RegExp_exec regex (tag_name r))))
         (backend_releases this);
     tagNameFilter := tagNameFilter this |}.

(** The sum of the [versions_count] of all summaries. *)
Definition total_count (m : gmap string Summary) : Z :=
  map_fold (λ _ s acc, versions_count s + acc) 0 m.

(** Two answers of [onUpdate] agree in all but the download address: the
    same failure, the same answer without update, or updates with the same
    name, notes, channel and date. *)
Definition same_answer (r1 r2 : completion Response) : Prop :=
  match r1, r2 with
  | Throw e1, Throw e2 => e1 = e2
  | Normal (Status204 t1), Normal (Status204 t2) => t1 = t2
  | Normal (Status200 i1), Normal (Status200 i2) =>
      u_name i1 = u_name i2 ∧ u_notes i1 = u_notes i2
      ∧ u_channel i1 = u_channel i2 ∧ u_pub_date i1 = u_pub_date i2
  | _, _ => False
  end.

(** The tag a download asks for: the [tag] parameter of the route, or
    "latest" when there is none. *)
Definition download_tag (req : DownloadRequest) : string :=
  match dl_tag req with
  | Some (String c t) => String c t
  | _ => "latest"
  end.

(** The channel condition of a download: none when a tag other than
    "latest" is asked for; otherwise the channel of the route, wildcard
    included, or "stable" when the route has none. *)
Definition download_channel_ok (req : DownloadRequest) (v : Version) : Prop :=
  download_tag req ≠ "latest"
  ∨ match dl_channel req with
    | Some c => c = "*" ∨ c = channel v
    | None => channel v = "stable"
    end.

(** The tag condition of a download. *)
Definition download_tag_ok {deps : VersionsDeps} (req : DownloadRequest) (v : Version)
  : Prop :=
  download_tag req = "latest"
  ∨ semver_satisfies (tag v) (JStr (download_tag req)) = Normal true.

(** The request with another [version] parameter. *)
Definition with_version (req : Request) (v : string) : Request :=
  {| fullUrl := fullUrl req;
     params_platform := params_platform req;
     params_channel := params_channel req;
     params_version := v;
     query_filetype := query_filetype req |}.

End Props2.

(** A concrete environment for the handlers. *)

Module Sample2.
Import Versions Nuts Handlers Sample.

(** Modelled from the spec: [resolve] of [utils/platforms] is not among the
    sources; section 4.3 has it pick, among the assets of the version whose
    platform matches, the one with the wanted extension if one is asked
    for, else the first. *)
Definition sample_resolve (v : Version) (platform : jsval) (wanted : option string)
  : option Asset :=
  let matching := List.filter (λ a, String.eqb (a_type a) (to_string platform))
                    (platforms v) in
  match wanted with
  | Some ext => List.find (λ a, has_suffix ext (a_filename a)) matching
  | None => head matching
  end.

#[local] Instance sample_handler_deps : HandlerDeps := {|
  OSX := "osx";
  WINDOWS := "windows";
  LINUX := "linux";
  LINUX_64 := "linux_64";
  platforms_resolve := sample_resolve;
  Feed_render := λ info items, feed_title info +:+ foldr (λ i acc, f_title i +:+ acc) "" items;
|}.

(** A browser on an unrecognised system, asking for [/]. *)
Definition plain_request : DownloadRequest :=
  {| dl_channel := None; dl_platform := None; dl_tag := None;
     dl_filename := None; dl_filetype := None;
     isMac := false; isWindows := false; isLinux := false; isLinux64 := false |}.

(** A request for one file of the newest version from 1.0.0 on,
    [/download/>=1.0.0/app-darwin.dmg]. *)
Definition file_request : DownloadRequest :=
  {| dl_channel := None; dl_platform := None; dl_tag := Some ">=1.0.0";
     dl_filename := Some "app-darwin.dmg"; dl_filetype := None;
     isMac := false; isWindows := false; isLinux := false; isLinux64 := false |}.

(** Three releases, a draft among them, with one asset that no platform
    claims. *)
Definition with_draft : Versions :=
  catalogue [release "v1.0.0" 10 "A" ["app.dmg"; "README.txt"];
             {| tag_name := "v1.1.0"; draft := true; r_published_at := None;
                body := JNull; assets := [] |};
             release "v1.2.0-beta.1" 30 "C" ["app.exe"]].

(** A pre-release with an installer and a file no platform claims. *)
Definition beta_release : Release :=
  release "v1.2.0-beta.1" 30 "C" ["app.exe"; "README.txt"].

(** A catalogue with a beta only. *)
Definition beta_only : Versions := catalogue [release "v2.0.0-beta.1" 20 "B" []].

(** The scenario behind the filter of the examples. *)
Definition filtered_scenario : Versions :=
  {| backend_releases := backend_releases scenario; tagNameFilter := Some pattern_v |}.

End Sample2.

(** * Properties *)

Module Facts.
Import Versions Nuts Props.

(** ** Completions *)

Lemma bind_Normal {A B} (m : completion A) (f : A → completion B) (b : B) :
  m ≫= f = Normal b → ∃ a, m = Normal a ∧ f a = Normal b.
Proof. destruct m as [a|e]; simpl; [eauto | discriminate]. Qed.

Lemma bind_Throw {A B} (m : completion A) (f : A → completion B) (e : exn) :
  m ≫= f = Throw e → m = Throw e ∨ ∃ a, m = Normal a ∧ f a = Throw e.
Proof. destruct m as [a|e']; simpl; [eauto | intros [= ->]; auto]. Qed.

Ltac inv_bind H :=
  let a := fresh "a" in
  let Ha := fresh "Ha" in
  apply bind_Normal in H; destruct H as (a & Ha & H).

(** ** Precedence of parsed versions *)

Ltac by_cases_on_compare :=
  repeat match goal with
         | |- context [N.compare ?a ?b] => destruct (N.compare_spec a b)
         | H : context [N.compare ?a ?b] |- _ => destruct (N.compare_spec a b)
         end.

Lemma compareMain_eq (x y : SemVer) : compareMain x y = Eq ↔ x = y.
Proof.
  destruct x as [a b c], y as [a' b' c']; unfold compareMain; simpl.
  split.
  - by_cases_on_compare; intros; subst; congruence.
  - intros [= -> -> ->]. by rewrite !N.compare_refl.
Qed.

Lemma compareMain_ge_trans (x y z : SemVer) :
  compareMain x y ≠ Lt → compareMain y z ≠ Lt → compareMain x z ≠ Lt.
Proof.
  destruct x as [a b c], y as [a' b' c'], z as [a'' b'' c''].
  unfold compareMain; simpl.
  by_cases_on_compare; subst; try congruence; try lia.
Qed.

Lemma compareMain_lt_gt (x y : SemVer) :
  compareMain x y = Lt → compareMain y x = Gt.
Proof.
  destruct x as [a b c], y as [a' b' c'].
  unfold compareMain; simpl.
  by_cases_on_compare; subst; try congruence; try lia.
Qed.

Section Sorting.
Context {deps : VersionsDeps}.

(** Where the comparator returns, both tags parse, and its sign is that of
    the precedence, reversed. *)
Lemma compareVersions_Normal (a b : Version) (c : Z) :
  compareVersions a b = Normal c →
  ∃ x y, semver_parse (tag a) = Some x ∧ semver_parse (tag b) = Some y
         ∧ (0 <? c) = bool_decide (compareMain x y = Lt).
Proof.
  unfold compareVersions, semver_gt, semver_lt, semver_compare.
  destruct (semver_parse (tag a)) as [x|]; [|discriminate].
  destruct (semver_parse (tag b)) as [y|]; [|discriminate].
  simpl. intros Hc. exists x, y. split_and!; try done.
  destruct (compareMain x y); simpl in Hc; injection Hc as <-; done.
Qed.

Lemma compareVersions_Throw (a b : Version) (e : exn) :
  compareVersions a b = Throw e →
  ∃ t, e = InvalidVersion t ∧ semver_parse t = None ∧ (t = tag a ∨ t = tag b).
Proof.
  unfold compareVersions, semver_gt, semver_lt, semver_compare.
  destruct (semver_parse (tag a)) as [x|] eqn:Ha.
  - destruct (semver_parse (tag b)) as [y|] eqn:Hb.
    + simpl. destruct (compareMain x y); simpl; discriminate.
    + simpl. intros [= <-]. eauto.
  - simpl. intros [= <-]. eauto.
Qed.

Lemma compareVersions_total (a b : Version) :
  parses (tag a) → parses (tag b) → ∃ c, compareVersions a b = Normal c.
Proof.
  intros [x Hx] [y Hy].
  unfold compareVersions, semver_gt, semver_lt, semver_compare.
  rewrite Hx, Hy. simpl. destruct (compareMain x y); simpl; eauto.
Qed.

(** The shape of a successful insertion: the element went past a run of
    strictly newer versions and stopped in front of one that is not. *)
Lemma insert_by_Normal (x : Version) (l r : list Version) :
  insert_by compareVersions x l = Normal r →
  ∃ l1 l2, l = l1 ++ l2 ∧ r = l1 ++ x :: l2
           ∧ Forall (λ y, semver_older x y) l1
           ∧ (∀ y, head l2 = Some y → semver_gte x y).
Proof.
  revert r. induction l as [|y l IH]; intros r; simpl.
  - intros [= <-]. exists [], []. split_and!; try done.
  - intros Hr. inv_bind Hr.
    apply compareVersions_Normal in Ha as (kx & ky & Hx & Hy & Hc).
    rewrite Hc in Hr. case_bool_decide as Hlt.
    + inv_bind Hr. injection Hr as <-.
      destruct (IH _ Ha) as (l1 & l2 & -> & -> & Hall & Hhd).
      exists (y :: l1), l2. split_and!; try done.
      constructor; [|done]. by exists kx, ky.
    + injection Hr as <-. exists [], (y :: l). split_and!; try done.
      intros ? [= <-]. by exists kx, ky.
Qed.

Lemma insert_by_Throw (x : Version) (l : list Version) (e : exn) :
  insert_by compareVersions x l = Throw e →
  ∃ t, e = InvalidVersion t ∧ semver_parse t = None ∧ t ∈ map tag (x :: l).
Proof.
  induction l as [|y l IH]; simpl; [discriminate|].
  intros He. apply bind_Throw in He as [He | (c & Hc & He)].
  - apply compareVersions_Throw in He as (t & -> & Ht & Hor).
    exists t; split_and!; try done.
    simpl; rewrite !elem_of_cons. destruct Hor; auto.
  - destruct (0 <? c); [|discriminate].
    apply bind_Throw in He as [He | (? & _ & [=])].
    destruct (IH He) as (t & -> & Ht & Hin).
    exists t; split_and!; try done.
    simpl in *; rewrite !elem_of_cons in *. destruct Hin; auto.
Qed.

Lemma insert_by_total (x : Version) (l : list Version) :
  parses (tag x) → Forall (λ y, parses (tag y)) l →
  ∃ r, insert_by compareVersions x l = Normal r.
Proof.
  intros Hx. induction 1 as [|y l Hy _ IH]; simpl; [eauto|].
  destruct (compareVersions_total x y Hx Hy) as [c ->]. simpl.
  destruct (0 <? c); [|eauto].
  destruct IH as [r ->]. simpl. eauto.
Qed.

Lemma insert_by_parses (x : Version) (l r : list Version) :
  insert_by compareVersions x l = Normal r → l ≠ [] →
  parses (tag x) ∧ ∃ y, head l = Some y ∧ parses (tag y).
Proof.
  destruct l as [|y l]; [done|]. simpl. intros Hr _. inv_bind Hr.
  apply compareVersions_Normal in Ha as (kx & ky & Hx & Hy & _).
  split; [by exists kx|]. exists y. split; [done | by exists ky].
Qed.

Lemma semver_gte_trans (a b c : Version) :
  semver_gte a b → semver_gte b c → semver_gte a c.
Proof.
  intros (x & y & Hx & Hy & Hxy) (y' & z & Hy' & Hz & Hyz).
  rewrite Hy in Hy'. injection Hy' as <-.
  exists x, z. split_and!; try done. eauto using compareMain_ge_trans.
Qed.

Lemma semver_older_gte (a b : Version) : semver_older a b → semver_gte b a.
Proof.
  intros (x & y & Hx & Hy & Hlt). exists y, x. split_and!; try done.
  by rewrite (compareMain_lt_gt _ _ Hlt).
Qed.

Lemma semver_older_precedence (t : string) (a b : Version) :
  semver_older a b → same_precedence t a = true → same_precedence t b = false.
Proof.
  intros (x & y & Hx & Hy & Hlt). unfold same_precedence. rewrite Hx, Hy.
  destruct (semver_parse t) as [k|]; [|done].
  rewrite bool_decide_eq_true, bool_decide_eq_false, !compareMain_eq.
  intros -> ->. by rewrite (proj2 (compareMain_eq y y)) in Hlt.
Qed.

Lemma insert_descending (x : Version) (l1 l2 : list Version) :
  descending (l1 ++ l2) → Forall (λ y, semver_older x y) l1 →
  (∀ y, head l2 = Some y → semver_gte x y) →
  descending (l1 ++ x :: l2).
Proof.
  unfold descending. rewrite !StronglySorted_app, StronglySorted_cons.
  intros (H12 & H1 & H2) Hold Hhd.
  assert (Forall (semver_gte x) l2) as Hx2.
  { destruct l2 as [|y l2]; [constructor|].
    apply StronglySorted_cons in H2 as [Hy _].
    constructor; [by apply Hhd|].
    eapply Forall_impl; [exact Hy|].
    intros z Hz. eapply semver_gte_trans; [by apply Hhd | done]. }
  split_and!; try done.
  intros y z Hy [->|Hz]%elem_of_cons.
  - apply semver_older_gte. by eapply Forall_forall in Hold.
  - by apply H12.
Qed.

Lemma insert_stable (x : Version) (l1 l2 : list Version) (t : string) :
  Forall (λ y, semver_older x y) l1 →
  List.filter (same_precedence t) (l1 ++ x :: l2)
  = List.filter (same_precedence t) (x :: l1 ++ l2).
Proof.
  intros Hold. rewrite List.filter_app. simpl.
  destruct (same_precedence t x) eqn:Hx; [|by rewrite List.filter_app].
  assert (List.filter (same_precedence t) l1 = []) as Hnil.
  { induction Hold as [|y l1 Hy _ IH]; simpl; [done|].
    by rewrite (semver_older_precedence t x y Hy Hx). }
  by rewrite List.filter_app, Hnil.
Qed.

(** A sort that returns has produced a stable, descending rearrangement,
    and every tag of an input of two or more versions parses. *)
Lemma Array_sort_Normal (l s : list Version) :
  Array_sort compareVersions l = Normal s →
  s ≡ₚ l ∧ descending s ∧ stable l s
  ∧ ((2 ≤ length l)%nat → Forall (λ v, parses (tag v)) l).
Proof.
  revert s; induction l as [|x l IH]; intros s; simpl.
  - intros [= <-]. split_and!; [done | constructor | done | simpl; lia].
  - intros Hs. inv_bind Hs.
    destruct (IH _ Ha) as (Hp & Hd & Hst & Hv).
    pose proof (insert_by_parses _ _ _ Hs) as Hparse.
    apply insert_by_Normal in Hs as (l1 & l2 & -> & -> & Hold & Hhd).
    split_and!.
    + rewrite <- Hp. symmetry. apply Permutation_middle.
    + by apply insert_descending.
    + intros t. rewrite insert_stable by done. simpl. by rewrite (Hst t).
    + intros Hlen.
      destruct l as [|z l]; [simpl in Hlen; lia|].
      destruct Hparse as (Hx & y & Hy & Hpy).
      { intros Hnil. rewrite Hnil in Hp. by apply Permutation_nil_l in Hp. }
      constructor; [done|].
      destruct l as [|z' l]; [|apply Hv; simpl; lia].
      simpl in Ha. injection Ha as Ha. rewrite <- Ha in Hy.
      injection Hy as <-. by constructor.
Qed.

Lemma Array_sort_Throw (l : list Version) (e : exn) :
  Array_sort compareVersions l = Throw e →
  ∃ t, e = InvalidVersion t ∧ semver_parse t = None ∧ t ∈ map tag l.
Proof.
  induction l as [|x l IH]; simpl; [discriminate|].
  intros He. apply bind_Throw in He as [He | (s & Hs & He)].
  - destruct (IH He) as (t & -> & Ht & Hin).
    exists t. split_and!; try done. by apply elem_of_cons; right.
  - apply insert_by_Throw in He as (t & -> & Ht & Hin).
    exists t. split_and!; try done.
    apply Array_sort_Normal in Hs as (Hp & _).
    simpl in *. by rewrite <- Hp.
Qed.

Lemma Array_sort_total (l : list Version) :
  Forall (λ v, parses (tag v)) l → ∃ s, Array_sort compareVersions l = Normal s.
Proof.
  induction 1 as [|x l Hx Hl [s Hs]]; simpl; [eauto|].
  rewrite Hs. simpl. apply insert_by_total; [done|].
  apply Array_sort_Normal in Hs as (Hp & _). by rewrite Hp.
Qed.

(** An array of at most one element is returned as it is: the comparator
    is not called. *)
Lemma Array_sort_short (l : list Version) :
  (length l ≤ 1)%nat → Array_sort compareVersions l = Normal l.
Proof. destruct l as [|x [|y l]]; simpl; try done; lia. Qed.

End Sorting.
(** ** Tags and channels *)

Section Strings.

Lemma split_after_until (sep : ascii) (s : string) :
  split sep s
  = until (λ c, Ascii.eqb c sep) s
      :: match after sep s with Some rest => split sep rest | None => [] end.
Proof.
  induction s as [|c s IH]; simpl; [done|].
  destruct (Ascii.eqb c sep); [done|]. by rewrite IH.
Qed.

Lemma split_first_until (sep : ascii) (s : string) :
  split_first sep s = until (λ c, Ascii.eqb c sep) s.
Proof. unfold split_first. by rewrite split_after_until. Qed.

Lemma until_until (p q : ascii → bool) (s : string) :
  until p (until q s) = until (λ c, p c || q c) s.
Proof.
  induction s as [|c s IH]; simpl; [done|].
  destruct (q c) eqn:Hq; simpl.
  - by rewrite orb_true_r.
  - rewrite orb_false_r. destruct (p c); [done|]. by rewrite IH.
Qed.

Lemma eqb_empty_false (s : string) : s ≠ "" → String.eqb s "" = false.
Proof. intros Hs. by apply String.eqb_neq. Qed.

End Strings.

Section Tags.
Context {deps : VersionsDeps}.

Lemma getSuffix_by_design (s : string) : channel_by_design s (getSuffix s).
Proof.
  unfold channel_by_design, getSuffix.
  rewrite split_after_until. simpl.
  destruct (after "-" s) as [rest|]; [|done].
  rewrite split_after_until. simpl.
  destruct rest as [|a rest]; simpl; [done|].
  unfold is_dash. destruct (Ascii.eqb a "-") eqn:Hdash; simpl; [done|].
  unfold is_dot. destruct (Ascii.eqb a ".") eqn:Hdot; [done|].
  rewrite split_first_until. simpl. rewrite Hdot, until_until.
  by split.
Qed.




(** A filter that compiles and does not match the tag: the match is null
    and reading its [length] throws, so the fallback behind the guard is
    not reached. *)
Lemma normalizeTag_no_match_throws (tag p : string) (regex : RegExp) :
  p ≠ "" → RegExp_new p = Some regex → RegExp_exec regex tag = None →
  normalizeTag tag (Some p) = Throw TypeError_null.
Proof.
  intros Hp Hnew Hexec. unfold normalizeTag, new_RegExp. simpl.
  rewrite (eqb_empty_false _ Hp), Hnew. simpl. by rewrite Hexec.
Qed.


(** C7 (amended): [extractChannel] returns "stable" when the version
    string (the tag, or with a filter the text of the [version] group) has
    no dash, or has nothing between its first dash and the next dash or the
    end; when the first dash is followed by a character other than a dash
    or a dot it returns the text after that dash up to the next dot or
    dash, which is not empty; a match without [version] group gives
    "stable". *)
Theorem extractChannel_by_design (tag : string) (f : option string) :
  (falsy_str f = true →
   ∃ c, extractChannel tag f = Normal c ∧ channel_by_design tag c)
  ∧ (∀ regex m, falsy_str f = false →
       RegExp_new (default "" f) = Some regex →
       RegExp_exec regex tag = Some m →
       ∃ c, extractChannel tag f = Normal c
            ∧ match groups_version m with
              | Some v => if String.eqb v "" then c = "stable"
                          else channel_by_design v c
              | None => c = "stable"
              end).
Proof.
  split.
  - intros Hf. exists (getSuffix tag). unfold extractChannel. rewrite Hf.
    split; [done | apply getSuffix_by_design].
  - intros regex m Hf Hnew Hexec. unfold extractChannel, new_RegExp.
    rewrite Hf, Hnew. simpl. rewrite Hexec.
    destruct (groups_version m) as [v|]; [|by eexists].
    destruct (String.eqb v ""); eexists; split; try done.
    apply getSuffix_by_design.
Qed.

End Tags.

(** ** The catalogue: list *)

Section Catalogue.
Context {deps : VersionsDeps}.

Lemma Versions_list_normalized (this : Versions) (input : list Version) :
  normalized this = Normal input →
  Versions_list this = Array_sort compareVersions input.
Proof.
  unfold normalized, Versions_list. intros Hn. inv_bind Hn.
  injection Hn as <-. by rewrite Ha.
Qed.

Lemma Versions_list_Normal (this : Versions) (out : list Version) :
  Versions_list this = Normal out →
  ∃ input, normalized this = Normal input.
Proof.
  unfold normalized, Versions_list. intros Hn. inv_bind Hn.
  rewrite Ha. by eexists.
Qed.

(** C2: the output of [list] is a rearrangement of the normalised releases
    that is descending by the precedence of the tags, and versions of equal
    precedence keep the order of the backend; there is an output as soon as
    every tag parses. *)
Theorem Versions_list_sorted_stable (this : Versions) (input : list Version) :
  normalized this = Normal input →
  (Forall (λ v, parses (tag v)) input → ∃ out, Versions_list this = Normal out)
  ∧ (∀ out, Versions_list this = Normal out →
       out ≡ₚ input ∧ descending out ∧ stable input out).
Proof.
  intros Hn. rewrite (Versions_list_normalized _ _ Hn). split.
  - apply Array_sort_total.
  - intros out Hout. by apply Array_sort_Normal in Hout as (? & ? & ? & _).
Qed.

(** C9 (amended): when two or more releases are kept and one of them has a
    tag that does not parse, [list] fails with the comparator's error for
    a tag that does not parse; when at most one release is kept, the
    comparator is not called and [list] returns it as it is, whatever its
    tag. *)
Theorem Versions_list_malformed (this : Versions) (input : list Version) :
  normalized this = Normal input →
  Exists (λ v, semver_parse (tag v) = None) input →
  ((2 ≤ length input)%nat →
   ∃ t, Versions_list this = Throw (InvalidVersion t)
        ∧ semver_parse t = None ∧ t ∈ map tag input)
  ∧ ((length input ≤ 1)%nat → Versions_list this = Normal input).
Proof.
  intros Hn Hbad. rewrite (Versions_list_normalized _ _ Hn). split.
  - intros Hlen.
    destruct (Array_sort compareVersions input) as [out|e] eqn:Hsort.
    + apply Array_sort_Normal in Hsort as (_ & _ & _ & Hall).
      apply Exists_exists in Hbad as (v & Hv & Hnone).
      specialize (Hall Hlen). rewrite Forall_forall in Hall.
      destruct (Hall v Hv) as [k Hk]. congruence.
    + apply Array_sort_Throw in Hsort as (t & -> & Ht & Hin). eauto.
  - apply Array_sort_short.
Qed.

End Catalogue.

(** ** The catalogue: filter and resolve *)

Section Filtering.
Context {deps : VersionsDeps}.

Lemma deref_insert (h : heap) (l : loc) (o : Options) :
  deref (<[l := o]> h) l = o.
Proof. unfold deref. by rewrite lookup_insert_eq. Qed.

Lemma deref_Some (h : heap) (l : loc) (o : Options) :
  h !! l = Some o → deref h l = o.
Proof. unfold deref. by intros ->. Qed.

(** The heap [filter] leaves and the completion it gives. *)
Lemma Versions_filter_unfold (this : Versions) (opts : option loc) (h : heap) :
  ∃ l h0, match opts with
          | Some l' => l = l' ∧ h0 = h
          | None => (l, h0) = alloc empty_object h
          end
  ∧ Versions_filter this opts h
    = (<[l := requested opts h]> (<[l := defaults (deref h0 l)]> h0),
       versions ← Versions_list this; filterM (keep (requested opts h)) versions).
Proof.
  unfold Versions_filter, requested.
  destruct opts as [l|]; simpl.
  - exists l, h. split; [done|]. by rewrite !deref_insert.
  - eexists _, _. split; [done|]. by rewrite !deref_insert.
Qed.

Lemma Versions_filter_completion (this : Versions) (opts : option loc) (h : heap) :
  (Versions_filter this opts h).2
  = (versions ← Versions_list this; filterM (keep (requested opts h)) versions).
Proof.
  destruct (Versions_filter_unfold this opts h) as (l & h0 & _ & ->). done.
Qed.

Lemma keep_Normal (o : Options) (v : Version) (b : bool) :
  keep o v = Normal b → selected o v = b.
Proof.
  unfold keep, selected.
  destruct (loose_eq_str (o_channel o) "*"),
    (loose_eq_str (o_channel o) (channel v)); simpl; try by intros [= <-].
  all: destruct (truthy (o_platform o)); simpl;
    [destruct (platforms_satisfies _ _); simpl; try by intros [= <-]|].
  all: destruct (loose_eq_str (o_tag o) "latest"); simpl; try by intros [= <-].
  all: intros ->; by destruct b.
Qed.

Lemma keep_total (o : Options) (v : Version) :
  (∀ e, semver_satisfies (tag v) (o_tag o) ≠ Throw e) →
  ∃ b, keep o v = Normal b.
Proof.
  intros Hsat. unfold keep.
  repeat (case_match; [by eexists|]).
  destruct (semver_satisfies _ _) as [b|e]; [by eexists | by destruct (Hsat e)].
Qed.

Lemma filterM_keep_Normal (o : Options) (vs out : list Version) :
  filterM (keep o) vs = Normal out → out = List.filter (selected o) vs.
Proof.
  revert out. induction vs as [|v vs IH]; intros out; simpl.
  - by intros [= <-].
  - intros Hout. inv_bind Hout. inv_bind Hout. injection Hout as <-.
    rewrite (keep_Normal _ _ _ Ha), (IH _ Ha0). by destruct a.
Qed.

Lemma filterM_keep_total (o : Options) (vs : list Version) :
  Forall (λ v, ∀ e, semver_satisfies (tag v) (o_tag o) ≠ Throw e) vs →
  filterM (keep o) vs = Normal (List.filter (selected o) vs).
Proof.
  induction 1 as [|v vs Hv _ IH]; simpl; [done|].
  destruct (keep_total o v Hv) as [b Hb]. rewrite Hb, IH. simpl.
  rewrite (keep_Normal _ _ _ Hb). by destruct b.
Qed.

Lemma requested_supplied (opts : option loc) (h : heap) (o : Options) :
  supplied opts h o →
  requested opts h
  = {| o_tag := wanted_tag o; o_platform := wanted_platform o;
       o_channel := wanted_channel o |}.
Proof.
  unfold supplied, requested. destruct opts as [l|].
  - intros Hl. rewrite (deref_Some _ _ _ Hl).
    unfold detect_platform, defaults, wanted_tag, wanted_platform, wanted_channel,
      or_default. simpl.
    destruct (o_platform o) as [| |[|c s]], (o_tag o), (o_channel o); simpl; done.
  - intros ->. done.
Qed.

Lemma loose_eq_str_true (v : jsval) (s : string) :
  loose_eq_str v s = true ↔ v = JStr s.
Proof.
  destruct v as [| |t]; simpl; [done..|].
  rewrite String.eqb_eq. split; [by intros -> | by intros [= ->]].
Qed.

Lemma returns_true_iff (c : completion bool) :
  returns_true c = true ↔ c = Normal true.
Proof. by destruct c as [[]|]. Qed.

Lemma selected_meets (o : Options) (v : Version) :
  selected {| o_tag := wanted_tag o; o_platform := wanted_platform o;
              o_channel := wanted_channel o |} v = true
  ↔ meets o v.
Proof.
  unfold selected, meets, channel_condition, platform_condition, tag_condition.
  cbn [o_tag o_platform o_channel].
  rewrite !andb_true_iff, !orb_true_iff, !loose_eq_str_true, returns_true_iff,
    negb_true_iff.
  tauto.
Qed.

Lemma filter_meets (o : Options) (vs : list Version) :
  List.filter (selected {| o_tag := wanted_tag o; o_platform := wanted_platform o;
                           o_channel := wanted_channel o |}) vs
  = filter (meets o) vs.
Proof.
  induction vs as [|v vs IH]; [done|].
  cbn [List.filter]. rewrite filter_cons, IH.
  pose proof (selected_meets o v) as Hv.
  destruct (selected _ v); destruct (decide (meets o v)) as [Hm|Hm]; try done.
  - by destruct Hm; apply Hv.
  - by apply Hv in Hm.
Qed.

(** C3: for the options the caller supplied, with "latest", null and
    "stable" standing in for a missing tag, platform and channel and a
    platform given by name resolved by [platforms.detect], [filter] returns
    the versions of [list], in the order of [list], for which all three
    conditions hold: the channel asked for is the wildcard or the channel
    of the version, no platform is asked for or the platforms of the
    version's assets satisfy it, and the tag asked for is "latest" or the
    version's tag satisfies it as a range. It returns as soon as [list]
    does and no range test throws. *)
Theorem Versions_filter_meets (this : Versions) (opts : option loc) (h : heap)
    (o : Options) :
  supplied opts h o →
  (∀ out, (Versions_filter this opts h).2 = Normal out →
     ∃ vs, Versions_list this = Normal vs ∧ out = filter (meets o) vs)
  ∧ (∀ vs, Versions_list this = Normal vs →
       Forall (λ v, ∀ e, semver_satisfies (tag v) (wanted_tag o) ≠ Throw e) vs →
       (Versions_filter this opts h).2 = Normal (filter (meets o) vs)).
Proof.
  intros Ho. rewrite Versions_filter_completion, (requested_supplied _ _ _ Ho).
  split.
  - intros out Hout. inv_bind Hout. exists a. split; [done|].
    rewrite <- filter_meets. by apply filterM_keep_Normal.
  - intros vs -> Hsat. simpl. rewrite <- filter_meets.
    by apply filterM_keep_total.
Qed.


Lemma requested_tag (opts : option loc) (h : heap) :
  o_tag (requested opts h)
  = o_tag (defaults (match opts with Some l => deref h l | None => empty_object end)).
Proof. unfold requested, detect_platform. by case_match. Qed.

Lemma requested_channel (opts : option loc) (h : heap) :
  o_channel (requested opts h)
  = o_channel (defaults (match opts with Some l => deref h l | None => empty_object end)).
Proof. unfold requested, detect_platform. by case_match. Qed.

Lemma filter_sublist {A} (f : A → bool) (l : list A) : List.filter f l `sublist_of` l.
Proof.
  induction l as [|x l IH]; simpl; [done|].
  destruct (f x); by constructor.
Qed.

Lemma keep_tag_latest (v : Version) :
  keep (detect_platform (defaults tag_latest)) v
  = Normal (String.eqb "stable" (channel v)).
Proof.
  unfold keep, detect_platform, defaults, tag_latest.
  cbn [o_channel o_platform o_tag loose_eq_str truthy].
  change (String.eqb "stable" "*") with false.
  change (String.eqb "latest" "latest") with true.
  by destruct (String.eqb "stable" (channel v)).
Qed.

(** C6 (amended): [filter({tag: 'latest'})] returns the versions of [list]
    whose channel is "stable", in the order of [list]: a subsequence of the
    output of [list]. *)
Theorem Versions_filter_latest (this : Versions) (l : loc) (h : heap) :
  h !! l = Some tag_latest →
  (Versions_filter this (Some l) h).2
  = (vs ← Versions_list this;
     Normal (List.filter (λ v, String.eqb "stable" (channel v)) vs))
  ∧ (∀ vs out, Versions_list this = Normal vs →
       (Versions_filter this (Some l) h).2 = Normal out →
       out `sublist_of` vs).
Proof.
  intros Hl.
  assert ((Versions_filter this (Some l) h).2
          = (vs ← Versions_list this;
             Normal (List.filter (λ v, String.eqb "stable" (channel v)) vs))) as Heq.
  { rewrite Versions_filter_completion. unfold requested.
    rewrite (deref_Some _ _ _ Hl).
    destruct (Versions_list this) as [vs|e]; [|done].
    cbn [mbind completion_bind].
    induction vs as [|v vs IH]; [done|].
    cbn [filterM List.filter]. rewrite keep_tag_latest, IH.
    cbn [mbind completion_bind].
    by destruct (String.eqb "stable" (channel v)). }
  split; [done|].
  intros vs out Hvs. rewrite Heq, Hvs. simpl. intros [= <-].
  apply filter_sublist.
Qed.

Lemma Versions_resolve_first (this : Versions) (opts : option loc) (h : heap)
    (v : Version) (vs : list Version) :
  (Versions_filter this opts h).2 = Normal (v :: vs) →
  (Versions_resolve this opts h).2 = Normal v.
Proof.
  unfold Versions_resolve. destruct (Versions_filter this opts h) as [h' r].
  simpl. by intros ->.
Qed.

(** With an options object, an empty selection is reported with the tag
    the object holds once [filter] has run. *)
Lemma Versions_resolve_not_found (this : Versions) (l : loc) (h : heap) :
  (Versions_filter this (Some l) h).2 = Normal [] →
  (Versions_resolve this (Some l) h).2
  = Throw (Error ("Version not found: "
                  +:+ to_string (o_tag (defaults (deref h l))))).
Proof.
  unfold Versions_resolve.
  destruct (Versions_filter_unfold this (Some l) h) as (l' & h0 & [-> ->] & ->).
  simpl. intros ->. simpl. by rewrite deref_insert, requested_tag.
Qed.

(** C4 (the code departs from the claim): when [resolve] is called without
    options and nothing is selected, the error is not the not-found error:
    the message is built from [opts.tag] with [opts] undefined, which
    throws a TypeError. *)
Theorem Versions_resolve_undefined (this : Versions) (h : heap) :
  (Versions_filter this None h).2 = Normal [] →
  (Versions_resolve this None h).2 = Throw TypeError_null.
Proof.
  unfold Versions_resolve. destruct (Versions_filter this None h) as [h' r].
  simpl. by intros ->.
Qed.

(** C10: [filter] writes the merged defaults (and the detected platform)
    into the very object the caller passed, leaving every other object
    alone; so [resolve], which reads the tag through the same reference,
    reports "latest" when the caller's object had no tag. *)
Theorem Versions_filter_mutates (this : Versions) (l : loc) (o : Options) (h : heap) :
  h !! l = Some o →
  ∃ h' r, Versions_filter this (Some l) h = (h', r)
    ∧ h' !! l = Some (requested (Some l) h)
    ∧ (∀ l', l' ≠ l → h' !! l' = h !! l')
    ∧ o_tag (requested (Some l) h)
      = match o_tag o with JUndefined => JStr "latest" | v => v end
    ∧ o_channel (requested (Some l) h)
      = match o_channel o with JUndefined => JStr "stable" | v => v end
    ∧ o_platform (requested (Some l) h)
      = (let p := match o_platform o with JUndefined => JNull | v => v end in
         if truthy p then platforms_detect (to_string p) else p)
    ∧ (o_tag o = JUndefined → r = Normal [] →
       Versions_resolve this (Some l) h
       = (h', Throw (Error "Version not found: latest"))).
Proof.
  intros Hl.
  destruct (Versions_filter_unfold this (Some l) h) as (l' & h0 & [-> ->] & Heq).
  eexists _, _. split; [exact Heq|]. split_and!.
  - by rewrite lookup_insert_eq.
  - intros l' Hne. by rewrite !lookup_insert_ne.
  - by rewrite requested_tag, (deref_Some _ _ _ Hl).
  - by rewrite requested_channel, (deref_Some _ _ _ Hl).
  - unfold requested, detect_platform. rewrite (deref_Some _ _ _ Hl). simpl.
    by case_match.
  - intros Htag Hr. unfold Versions_resolve. rewrite Heq, Hr. simpl.
    rewrite deref_insert, requested_tag, (deref_Some _ _ _ Hl). simpl.
    by rewrite Htag.
Qed.

End Filtering.

(** ** The catalogue: channels *)

Section Channels.
Context {deps : VersionsDeps}.

Ltac time_cases :=
  unfold lt_time in *;
  repeat match goal with
         | H : context [match ?t with Some _ => _ | None => _ end] |- _ =>
             destruct t eqn:?
         | |- context [match ?t with Some _ => _ | None => _ end] =>
             destruct t eqn:?
         end;
  simplify_eq;
  rewrite ?Z.ltb_lt, ?Z.ltb_ge in *; try done; try lia.

Lemma lt_time_irrefl (a : time) : lt_time a a = false.
Proof. destruct a as [x|]; simpl; [|done]. apply Z.ltb_irrefl. Qed.

Lemma lt_time_trans (a b c : time) :
  lt_time a b = true → lt_time b c = true → lt_time a c = true.
Proof. intros. time_cases. Qed.

Lemma lt_time_below (a b c : time) :
  lt_time a b = false → lt_time a c = true → lt_time c b = false ∧ b ≠ c.
Proof.
  intros Hab Hac. split.
  - time_cases.
  - intros ->. congruence.
Qed.

Lemma count_channel_snoc (c : string) (vs : list Version) (v : Version) :
  count_channel c (vs ++ [v])
  = count_channel c vs + (if String.eqb (channel v) c then 1 else 0).
Proof.
  unfold count_channel. rewrite List.filter_app, length_app. cbn [List.filter].
  destruct (String.eqb (channel v) c); simpl; lia.
Qed.

Lemma summarises_nil (c : string) :
  summarises c [] {| latest := None; versions_count := 0; s_published_at := Some 0 |}.
Proof.
  split; [done|]. left. split_and!; try done. intros v Hv. by apply elem_of_nil in Hv.
Qed.

(** A version of another channel leaves the summary as it is. *)
Lemma summarises_other (c : string) (vs : list Version) (v : Version) (s : Summary) :
  channel v ≠ c → summarises c vs s → summarises c (vs ++ [v]) s.
Proof.
  intros Hne [Hcount Hlatest]. split.
  - rewrite count_channel_snoc, Hcount.
    apply String.eqb_neq in Hne. rewrite Hne. lia.
  - destruct Hlatest as [(Hl & Hp & Hall) | (l1 & w & l2 & -> & Hw & Hl & Hp & Hpos & Hmax & Hfirst)].
    + left. split_and!; try done.
      intros v' [Hv' | ->%list_elem_of_singleton]%elem_of_app; [eauto | done].
    + right. exists l1, w, (l2 ++ [v]). split_and!; try done.
      * by rewrite <- app_assoc.
      * intros v' [Hv' | ->%list_elem_of_singleton]%elem_of_app; [eauto | done].
Qed.

(** The summary of the channel after one more of its versions. *)
Lemma summarises_step (c : string) (vs : list Version) (v : Version) (s0 : Summary) :
  channel v = c → summarises c vs s0 →
  summarises c (vs ++ [v])
    (if lt_time (s_published_at s0) (published_at v)
     then {| latest := Some (tag v); versions_count := versions_count s0 + 1;
             s_published_at := published_at v |}
     else {| latest := latest s0; versions_count := versions_count s0 + 1;
             s_published_at := s_published_at s0 |}).
Proof.
  intros Hc [Hcount Hlatest]. split.
  - rewrite count_channel_snoc, <- Hcount.
    apply String.eqb_eq in Hc. rewrite Hc. by case_match.
  - destruct (lt_time (s_published_at s0) (published_at v)) eqn:Hlt;
      cbn [latest versions_count s_published_at].
    + right. exists vs, v, []. split_and!; try done.
      * destruct Hlatest as [(_ & Hp & _) | (l1 & w & l2 & _ & _ & _ & Hp & Hpos & _)].
        -- by rewrite Hp in Hlt.
        -- rewrite Hp in Hlt. eauto using lt_time_trans.
      * intros v' [Hv' | ->%list_elem_of_singleton]%elem_of_app Hc';
          [|apply lt_time_irrefl].
        destruct Hlatest as [(_ & Hp & Hall) | (l1 & w & l2 & _ & _ & _ & Hp & _ & Hmax & _)];
          rewrite Hp in Hlt.
        -- by apply (lt_time_below _ _ _ (Hall v' Hv' Hc') Hlt).
        -- by apply (lt_time_below _ _ _ (Hmax v' Hv' Hc') Hlt).
      * intros v' Hv' Hc'.
        destruct Hlatest as [(_ & Hp & Hall) | (l1 & w & l2 & _ & _ & _ & Hp & _ & Hmax & _)];
          rewrite Hp in Hlt.
        -- by apply (lt_time_below _ _ _ (Hall v' Hv' Hc') Hlt).
        -- by apply (lt_time_below _ _ _ (Hmax v' Hv' Hc') Hlt).
    + destruct Hlatest as [(Hl & Hp & Hall) | (l1 & w & l2 & -> & Hw & Hl & Hp & Hpos & Hmax & Hfirst)].
      * left. split_and!; try done.
        intros v' [Hv' | ->%list_elem_of_singleton]%elem_of_app Hc'; [eauto|].
        by rewrite <- Hp.
      * right. exists l1, w, (l2 ++ [v]). split_and!; try done.
        -- by rewrite <- app_assoc.
        -- intros v' [Hv' | ->%list_elem_of_singleton]%elem_of_app Hc'; [eauto|].
           by rewrite <- Hp.
Qed.

Lemma count_channel_absent (c : string) (vs : list Version) :
  c ∉ map channel vs → count_channel c vs = 0.
Proof.
  unfold count_channel. induction vs as [|v vs IH]; [done|].
  cbn [map List.filter]. rewrite not_elem_of_cons. intros [Hne Hvs].
  assert (String.eqb (channel v) c = false) as -> by (apply String.eqb_neq; congruence).
  by apply IH.
Qed.

Lemma summarises_absent (c : string) (vs : list Version) :
  c ∉ map channel vs →
  summarises c vs {| latest := None; versions_count := 0; s_published_at := Some 0 |}.
Proof.
  intros Hc. split; [by rewrite count_channel_absent|].
  left. split_and!; try done.
  intros v Hv Hcv. destruct Hc. rewrite <- Hcv.
  apply list_elem_of_In, in_map. by apply list_elem_of_In.
Qed.

(** One turn of the loop keeps the map in step with the versions seen. *)
Lemma channels_step_spec (vs : list Version) (m : gmap string Summary) (v : Version) :
  (∀ c, is_Some (m !! c) ↔ c ∈ map channel vs ∧ inherited c = false) →
  (∀ c s, m !! c = Some s → summarises c vs s) →
  (∀ c, is_Some (channels_step m v !! c)
        ↔ c ∈ map channel (vs ++ [v]) ∧ inherited c = false)
  ∧ (∀ c s, channels_step m v !! c = Some s → summarises c (vs ++ [v]) s).
Proof.
  intros Hdom Hsum. unfold channels_step.
  assert (∀ c, c ∈ map channel (vs ++ [v]) ↔ c ∈ map channel vs ∨ c = channel v) as Hin.
  { intros c. rewrite map_app, elem_of_app. simpl. by rewrite list_elem_of_singleton. }
  destruct (bool_decide (m !! channel v = None) && inherited (channel v)) eqn:Hskip.
  - apply andb_true_iff in Hskip as [Hnone%bool_decide_eq_true Hinh]. split.
    + intros c. rewrite Hdom, Hin. split; [intros [? ?]; auto|].
      intros [[?| ->] ?]; [auto | congruence].
    + intros c s Hs. apply summarises_other; [|by apply Hsum].
      intros Hc. rewrite Hc in Hnone. congruence.
  - assert (inherited (channel v) = false
            ∧ summarises (channel v) vs
                (default {| latest := None; versions_count := 0;
                            s_published_at := Some 0 |} (m !! channel v)))
      as [Hinh Hs0].
    { pose proof (Hdom (channel v)) as Hd.
      destruct (m !! channel v) as [s0|] eqn:Hm; simpl.
      - split; [|by apply Hsum]. by apply Hd.
      - rewrite bool_decide_eq_true_2 in Hskip by done. simpl in Hskip.
        split; [done|]. apply summarises_absent.
        intros Hc. destruct Hd as [_ Hd]. by destruct Hd. }
    split.
    + intros c. destruct (decide (c = channel v)) as [->|Hne].
      * rewrite lookup_insert_eq, Hin. split; [auto | by eexists].
      * rewrite lookup_insert_ne by done. rewrite Hdom, Hin.
        split; [intros [? ?]; auto | intros [[?|?] ?]; [auto | done]].
    + intros c s. destruct (decide (c = channel v)) as [->|Hne].
      * rewrite lookup_insert_eq. intros [= <-].
        by apply (summarises_step (channel v) vs v).
      * rewrite lookup_insert_ne by done. intros Hs.
        apply summarises_other; [done | by apply Hsum].
Qed.

Lemma channels_fold_spec (vs : list Version) :
  (∀ c, is_Some (fold_left channels_step vs ∅ !! c)
        ↔ c ∈ map channel vs ∧ inherited c = false)
  ∧ (∀ c s, fold_left channels_step vs ∅ !! c = Some s → summarises c vs s).
Proof.
  induction vs as [|v vs [IHdom IHsum]] using rev_ind.
  - split.
    + intros c. simpl. rewrite lookup_empty. split; [by intros [? ?]|].
      intros [Hc _]. by apply elem_of_nil in Hc.
    + intros c s. simpl. by rewrite lookup_empty.
  - rewrite fold_left_app. simpl. by apply channels_step_spec.
Qed.

(** C8 (amended): [channels] maps each channel of [list], other than a name
    every object inherits, to a summary whose [versions_count] is the
    number of versions of the channel and whose [latest] is the tag of the
    first version of the channel with the maximum [published_at], provided
    that maximum is later than the epoch; when no version of the channel is
    published after the epoch, [latest] stays null. *)
Theorem Versions_channels_summary (this : Versions) (vs : list Version) :
  Versions_list this = Normal vs →
  ∃ m, Versions_channels this = Normal m
    ∧ (∀ c, is_Some (m !! c) ↔ c ∈ map channel vs ∧ inherited c = false)
    ∧ (∀ c s, m !! c = Some s → summarises c vs s).
Proof.
  intros Hvs. exists (fold_left channels_step vs ∅).
  unfold Versions_channels. rewrite Hvs. split; [done|].
  apply channels_fold_spec.
Qed.

End Channels.

(** ** The update handler *)

Section Update.
Context {deps : VersionsDeps} {nuts_deps : NutsDeps}.

Lemma slice_0_m1_snoc {A} (l : list A) (x : A) : slice_0_m1 (l ++ [x]) = l.
Proof.
  unfold slice_0_m1. rewrite length_app. simpl.
  replace (length l + 1 - 1)%nat with (length l) by lia.
  by rewrite take_app_length.
Qed.

(** With a single qualifying version that is not the client's, the notes
    are its own. *)
Lemma update_response_single (req : Request) (platform : jsval)
    (channel tag filetype : string) (v : Version) (info : UpdateInfo) :
  update_response req platform channel tag filetype [v] = Normal (Status200 info) →
  u_notes info = notes_merge [v] false.
Proof.
  unfold update_response. repeat case_match; try done; by intros [= <-].
Qed.

(** C5 (the code departs from the claim): with two or more qualifying
    versions, the notes of the response are those of all of them but the
    last, the oldest, whether or not that one is the client's version. *)
Theorem update_response_notes (req : Request) (platform : jsval)
    (channel tag filetype : string) (newer : list Version) (oldest : Version)
    (info : UpdateInfo) :
  newer ≠ [] →
  update_response req platform channel tag filetype (newer ++ [oldest])
  = Normal (Status200 info) →
  u_notes info = notes_merge newer false.
Proof.
  intros Hne. unfold update_response.
  destruct (newer ++ [oldest]) as [|latest rest] eqn:Hvs; [done|].
  destruct (String.eqb (Versions.tag latest) tag); [done|].
  destruct (published_at latest); [|done].
  intros [= <-]. cbn [u_notes]. rewrite <- Hvs.
  assert ((length rest =? 0)%nat = false) as ->.
  { apply Nat.eqb_neq. apply (f_equal length) in Hvs.
    rewrite length_app in Hvs. simpl in Hvs.
    destruct newer; [done | simpl in Hvs; lia]. }
  by rewrite slice_0_m1_snoc.
Qed.

End Update.

(** ** The properties on concrete catalogues *)

Section Examples.
Import Sample.
#[local] Existing Instance sample_deps.
#[local] Existing Instance sample_nuts_deps.



(** C7, refuted: a tag that ends with its first dash gets "stable", which
    is not text taken after that dash. *)
Lemma extractChannel_dash_at_end :
  ∃ c, extractChannel "1.0.0-" None = Normal c ∧ ¬ channel_as_claimed "1.0.0-" c.
Proof.
  exists "stable". split; [reflexivity|].
  intros [_ Hc]. vm_compute in Hc. discriminate.
Qed.

(** A dash followed at once by a dot: the channel is the empty string. *)
Example extractChannel_dash_dot : extractChannel "1.0.0-.1" None = Normal "".
Proof. reflexivity. Qed.

(** C7 (amended), on a pre-release tag and on a filtered one. *)
Lemma extractChannel_by_design_witness :
  (∃ c, extractChannel "1.0.0-rc-1.2" None = Normal c
        ∧ channel_by_design "1.0.0-rc-1.2" c)
  ∧ (∃ c, extractChannel "v2.0.0-beta.1" (Some pattern_v) = Normal c
          ∧ channel_by_design "2.0.0-beta.1" c).
Proof.
  split.
  - by apply (extractChannel_by_design (deps := sample_deps) "1.0.0-rc-1.2" None).
  - destruct (proj2 (extractChannel_by_design (deps := sample_deps)
                       "v2.0.0-beta.1" (Some pattern_v))
                tt {| matched := "v2.0.0-beta.1";
                      groups := Some {[ "version" := Some "2.0.0-beta.1" ]} |})
      as (c & Hc & Hd); [reflexivity..|].
    exists c. split; [exact Hc|]. exact Hd.
Defined.

(** C2, on the catalogue of the specification's scenario. *)
Lemma Versions_list_sorted_stable_witness :
  ∃ input, normalized scenario = Normal input
    ∧ (Forall (λ v, parses (tag v)) input → ∃ out, Versions_list scenario = Normal out)
    ∧ (∀ out, Versions_list scenario = Normal out →
         out ≡ₚ input ∧ descending out ∧ stable input out).
Proof.
  eexists. split; [vm_compute; reflexivity|].
  apply (Versions_list_sorted_stable (deps := sample_deps) scenario).
  vm_compute; reflexivity.
Defined.

(** C9, refuted: the only release has a tag that is no semantic version,
    it is kept, and [list] returns it instead of failing. *)
Lemma Versions_list_single_malformed :
  ∃ v, normalized nightly_only = Normal [v]
       ∧ semver_parse (tag v) = None
       ∧ Versions_list nightly_only = Normal [v].
Proof. eexists. split_and!; vm_compute; reflexivity. Qed.

(** C9 (amended), with a well-formed release beside the malformed one. *)
Lemma Versions_list_malformed_witness :
  ∃ input, normalized nightly_and_stable = Normal input
    ∧ Exists (λ v, semver_parse (tag v) = None) input
    ∧ (2 ≤ length input)%nat
    ∧ ∃ t, Versions_list nightly_and_stable = Throw (InvalidVersion t)
           ∧ semver_parse t = None ∧ t ∈ map tag input.
Proof.
  eexists. split; [vm_compute; reflexivity|].
  assert (Exists (λ v, semver_parse (tag v) = None)
            [sample_version "nightly" "stable" "N" 10;
             sample_version "1.0.0" "stable" "A" 20]) as Hbad.
  { apply Exists_cons_hd. vm_compute; reflexivity. }
  split; [exact Hbad|]. split; [simpl; lia|].
  apply (Versions_list_malformed (deps := sample_deps) nightly_and_stable _
           ltac:(vm_compute; reflexivity) Hbad).
  simpl; lia.
Defined.

(** C3, on the scenario, for the beta channel, the macOS image and the
    versions from 1.0.0 on. *)
Lemma Versions_filter_meets_witness :
  let o := {| o_tag := JStr ">=1.0.0"; o_platform := JStr "app.dmg";
              o_channel := JStr "beta" |} in
  let h : gmap nat Options := {[ 0%nat := o ]} in
  ∃ vs, supplied (Some 0%nat) h o
    ∧ Versions_list scenario = Normal vs
    ∧ Forall (λ v, ∀ e, semver_satisfies (tag v) (wanted_tag o) ≠ Throw e) vs
    ∧ (Versions_filter scenario (Some 0%nat) h).2 = Normal (filter (meets o) vs)
    ∧ map tag vs = ["2.0.0"; "1.0.0"]
    ∧ map tag (filter (meets o) vs) = ["2.0.0"].
Proof.
  intros o h. eexists.
  assert (supplied (Some 0%nat) h o) as Ho by reflexivity.
  split; [exact Ho|]. split; [vm_compute; reflexivity|].
  match goal with |- ?P ∧ _ => assert P as Hsat end.
  { repeat constructor; intros e; vm_compute; discriminate. }
  split; [exact Hsat|]. split.
  - apply (proj2 (Versions_filter_meets (deps := sample_deps) scenario (Some 0%nat) h o Ho));
      [vm_compute; reflexivity | exact Hsat].
  - split; vm_compute; reflexivity.
Defined.

(** C6, refuted: on the scenario the beta comes first in [list] and is
    not selected, so the selection is not a prefix of [list]. *)
Lemma Versions_filter_latest_not_prefix :
  ∃ vs out, Versions_list scenario = Normal vs
    ∧ (Versions_filter scenario (Some 0%nat) {[ 0%nat := tag_latest ]}).2 = Normal out
    ∧ ¬ out `prefix_of` vs.
Proof.
  eexists _, _. split_and!; [vm_compute; reflexivity..|].
  intros [k Hk]. discriminate.
Qed.

(** C6 (amended), on the scenario. *)
Lemma Versions_filter_latest_witness :
  ({[ 0%nat := tag_latest ]} : gmap nat Options) !! 0%nat = Some tag_latest
  ∧ ∃ vs out, Versions_list scenario = Normal vs
      ∧ (Versions_filter scenario (Some 0%nat) {[ 0%nat := tag_latest ]}).2 = Normal out
      ∧ out `sublist_of` vs.
Proof.
  assert (({[ 0%nat := tag_latest ]} : gmap nat Options) !! 0%nat = Some tag_latest)
    as Hl by reflexivity.
  split; [exact Hl|].
  eexists _, _. split; [vm_compute; reflexivity|].
  split; [vm_compute; reflexivity|].
  apply (proj2 (Versions_filter_latest (deps := sample_deps) scenario 0%nat _ Hl));
    vm_compute; reflexivity.
Defined.

(** C4, on a catalogue without releases. *)
Lemma Versions_resolve_undefined_witness :
  (Versions_filter (catalogue []) None ∅).2 = Normal []
  ∧ (Versions_resolve (catalogue []) None ∅).2 = Throw TypeError_null.
Proof.
  assert ((Versions_filter (catalogue []) None ∅).2 = Normal []) as Hf
    by (vm_compute; reflexivity).
  split; [exact Hf|].
  exact (Versions_resolve_undefined (deps := sample_deps) (catalogue []) ∅ Hf).
Defined.

(** C10, with an options object that only asks for a channel no release
    is on. *)
Lemma Versions_filter_mutates_witness :
  let o := {| o_tag := JUndefined; o_platform := JUndefined;
              o_channel := JStr "alpha" |} in
  let h : gmap nat Options := {[ 0%nat := o ]} in
  h !! 0%nat = Some o
  ∧ ∃ h', (Versions_filter scenario (Some 0%nat) h).1 = h'
      ∧ h' !! 0%nat = Some {| o_tag := JStr "latest"; o_platform := JNull;
                             o_channel := JStr "alpha" |}
      ∧ Versions_resolve scenario (Some 0%nat) h
        = (h', Throw (Error "Version not found: latest")).
Proof.
  intros o h.
  assert (h !! 0%nat = Some o) as Hl by reflexivity.
  split; [exact Hl|].
  destruct (Versions_filter_mutates (deps := sample_deps) scenario 0%nat o h Hl)
    as (h' & r & Heq & Hh' & _ & _ & _ & _ & Hres).
  exists h'. split; [by rewrite Heq|]. split.
  - rewrite Hh'. vm_compute; reflexivity.
  - apply Hres; [reflexivity|].
    change r with (h', r).2. rewrite <- Heq. vm_compute; reflexivity.
Defined.

(** C8, refuted: the only release is published at the epoch; the summary
    of its channel counts it and has no [latest]. *)
Lemma Versions_channels_epoch :
  ∃ vs m, Versions_list epoch_only = Normal vs
    ∧ Versions_channels epoch_only = Normal m
    ∧ m !! "stable" = Some {| latest := None; versions_count := 1;
                             s_published_at := Some 0 |}
    ∧ ¬ channels_as_claimed vs m.
Proof.
  eexists _, _. split_and!; [vm_compute; reflexivity..|].
  intros Hclaim.
  destruct (Hclaim "stable") as (s & Hs & _ & w & _ & Hlatest).
  { apply list_elem_of_here. }
  vm_compute in Hs. injection Hs as <-. discriminate.
Qed.

(** C8 (amended), on the scenario: one stable and one beta version. *)
Lemma Versions_channels_summary_witness :
  ∃ vs m, Versions_list scenario = Normal vs
    ∧ Versions_channels scenario = Normal m
    ∧ (∀ c, is_Some (m !! c) ↔ c ∈ map channel vs ∧ inherited c = false)
    ∧ (∀ c s, m !! c = Some s → summarises c vs s).
Proof.
  eexists. 
  destruct (Versions_channels_summary (deps := sample_deps) scenario _
              ltac:(vm_compute; reflexivity)) as (m & Hm & Hdom & Hsum).
  exists m. split; [vm_compute; reflexivity|]. split_and!; assumption.
Defined.

(** C5: the client runs 1.0.0, which the catalogue no longer has; 3.0.0
    and 2.0.0 qualify and both are strictly newer, yet the notes of the
    response are those of 3.0.0 alone. *)
Lemma update_response_notes_witness :
  let v3 := {| version := "3.0.0"; tag := "3.0.0"; channel := "stable";
               notes := "C"; published_at := Some 30; platforms := [] |} in
  let v2 := {| version := "2.0.0"; tag := "2.0.0"; channel := "stable";
               notes := "B"; published_at := Some 20; platforms := [] |} in
  ∃ info,
    ([v3] ≠ []
     ∧ update_response update_from_1 (JStr "osx_64") "*" "1.0.0" "zip" ([v3] ++ [v2])
       = Normal (Status200 info))
    ∧ u_notes info = notes_merge [v3] false
    ∧ strictly_newer "1.0.0" ([v3] ++ [v2]) = [v3; v2]
    ∧ notes_merge [v3] false = "C"
    ∧ notes_merge (strictly_newer "1.0.0" ([v3] ++ [v2])) false = "CB".
Proof.
  intros v3 v2. eexists.
  match goal with |- (?P ∧ ?Q) ∧ _ => assert P as Hne by done; assert Q as Hr end.
  { vm_compute; reflexivity. }
  split; [by split|]. split.
  - exact (update_response_notes (nuts_deps := sample_nuts_deps)
             _ _ _ _ _ [v3] v2 _ Hne Hr).
  - split_and!; vm_compute; reflexivity.
Defined.

(** The same request, followed through the handler. *)
Example onUpdate_from_1 :
  ∃ info, (onUpdate two_newer update_from_1 ∅).2 = Normal (Status200 info)
          ∧ u_name info = "3.0.0" ∧ u_notes info = "C".
Proof. eexists. split_and!; vm_compute; reflexivity. Qed.

End Examples.

End Facts.

(** * Further properties of the catalogue and of the handlers *)

Module MoreFacts.
Import Versions Nuts Handlers Props Props2 Facts.

(** ** Fields of a split *)

Section Fields.

Lemma append_cons (a : ascii) (s t : string) :
  String a s +:+ t = String a (s +:+ t).
Proof. reflexivity. Qed.

Lemma occurs_until (c : ascii) (s : string) :
  occurs c (until (λ a, Ascii.eqb a c) s) = false.
Proof.
  induction s as [|a s IH]; simpl; [done|].
  destruct (Ascii.eqb a c) eqn:Ha; simpl; [done|]. by rewrite Ha, IH.
Qed.

Lemma occurs_until_other (c : ascii) (p : ascii → bool) (s : string) :
  occurs c s = false → occurs c (until p s) = false.
Proof.
  induction s as [|a s IH]; simpl; [done|].
  intros [Ha Hs]%orb_false_iff. destruct (p a); simpl; [done|].
  by rewrite Ha, IH.
Qed.

Lemma until_rest (p : ascii → bool) (s : string) :
  ∃ rest, s = until p s +:+ rest
          ∧ (rest = "" ∨ ∃ a r, rest = String a r ∧ p a = true).
Proof.
  induction s as [|a s (rest & Hs & Hrest)]; simpl.
  - exists "". auto.
  - destruct (p a) eqn:Ha; simpl.
    + exists (String a s). split; [done|]. right. by exists a, s.
    + exists rest. split; [|done].
      rewrite append_cons. by f_equal.
Qed.

Lemma split_fields (sep : ascii) (s f : string) :
  f ∈ split sep s → occurs sep f = false.
Proof.
  revert f. induction s as [|a s IH]; intros f; simpl.
  - by intros ->%list_elem_of_singleton.
  - destruct (Ascii.eqb a sep) eqn:Ha.
    + intros [-> | Hf]%elem_of_cons; [done | by apply IH].
    + destruct (split sep s) as [|g gs] eqn:Hsplit.
      * intros ->%list_elem_of_singleton. simpl. by rewrite Ha.
      * intros [-> | Hf]%elem_of_cons.
        -- simpl. rewrite Ha. apply IH, list_elem_of_here.
        -- apply IH. by apply list_elem_of_further.
Qed.

Lemma until_append (p : ascii → bool) (s t : string) (a : ascii) :
  p a = true → until p (s +:+ String a t) = until p s.
Proof.
  intros Ha. induction s as [|b s IH].
  - simpl. by rewrite Ha.
  - rewrite append_cons. simpl. destruct (p b); [done | by rewrite IH].
Qed.

End Fields.

(** ** Normalised versions *)

Section Normalised.
Context {deps : VersionsDeps}.

Lemma normalizeVersion_Throw (r : Release) (f : option string) (e : exn) :
  normalizeVersion r f = Throw e →
  ∃ p, f = Some p ∧ p ≠ "" ∧ RegExp_new p = None ∧ e = SyntaxError p.
Proof.
  unfold normalizeVersion, normalizeTag, extractChannel, new_RegExp.
  destruct (draft r); [done|].
  destruct f as [p|]; simpl; [|done].
  destruct (String.eqb p "") eqn:Hp; simpl; [done|].
  apply String.eqb_neq in Hp.
  destruct (RegExp_new p) as [regex|] eqn:Hnew; simpl.
  - destruct (RegExp_exec regex (tag_name r)) as [m|]; simpl.
    + destruct (groups_version m) as [v|]; simpl; [|done].
      by destruct (String.eqb v "").
    + done.
  - intros [= <-]. by exists p.
Qed.

Lemma normalizeVersion_Some (r : Release) (f : option string) (v : Version) :
  normalizeVersion r f = Normal (Some v) →
  draft r = false
  ∧ normalizeTag (tag_name r) f = Normal (version v)
  ∧ extractChannel (tag_name r) f = Normal (channel v)
  ∧ tag v = split_first "-" (version v)
  ∧ notes v = (if truthy (body r) then to_string (body r) else "")
  ∧ published_at v = r_published_at r
  ∧ platforms v = compact (map normalizeAsset (assets r)).
Proof.
  unfold normalizeVersion.
  destruct (draft r); [done|].
  intros Hv. inv_bind Hv. destruct a; [|done]. simpl in Hv.
  inv_bind Hv. inv_bind Hv. inv_bind Hv. injection Hv as <-. simpl.
  rewrite Ha0 in Ha1. injection Ha1 as <-. done.
Qed.

Lemma getSuffix_chars (s : string) :
  occurs "-" (getSuffix s) = false ∧ occurs "." (getSuffix s) = false.
Proof.
  unfold getSuffix.
  destruct (split "-" s !! 1%nat) as [suffix|] eqn:Hs; [|done].
  destruct (String.eqb suffix ""); [done|].
  rewrite split_first_until. split; [|apply occurs_until].
  apply occurs_until_other, (split_fields "-" s).
  by eapply list_elem_of_lookup_2.
Qed.

Lemma extractChannel_chars (t : string) (f : option string) (c : string) :
  extractChannel t f = Normal c →
  occurs "-" c = false ∧ occurs "." c = false.
Proof.
  unfold extractChannel.
  destruct (falsy_str f); [intros [= <-]; apply getSuffix_chars|].
  intros Hc. inv_bind Hc.
  destruct (RegExp_exec a t) as [m|]; [|done].
  destruct (groups_version m) as [v|]; [|by injection Hc as <-].
  destruct (String.eqb v ""); injection Hc as <-; [done|].
  apply getSuffix_chars.
Qed.

(** X1: the tag of a version holds no dash, and the version string is the
    tag, alone or followed by a dash and a suffix. *)
Theorem version_tag_shape (r : Release) (f : option string) (v : Version) :
  normalizeVersion r f = Normal (Some v) →
  occurs "-" (tag v) = false
  ∧ ∃ rest, version v = tag v +:+ rest ∧ (rest = "" ∨ ∃ r', rest = String "-" r').
Proof.
  intros (_ & _ & _ & Htag & _)%normalizeVersion_Some.
  rewrite Htag, split_first_until. split; [apply occurs_until|].
  destruct (until_rest (λ c, Ascii.eqb c "-") (version v)) as (rest & Hv & Hrest).
  exists rest. split; [done|].
  destruct Hrest as [-> | (a & r' & -> & Ha)]; [by left|].
  right. exists r'. by apply Ascii.eqb_eq in Ha as ->.
Qed.

(** X2: the channel of a version holds neither a dash nor a dot. *)
Theorem version_channel_shape (r : Release) (f : option string) (v : Version) :
  normalizeVersion r f = Normal (Some v) →
  occurs "-" (channel v) = false ∧ occurs "." (channel v) = false.
Proof.
  intros (_ & _ & Hc & _)%normalizeVersion_Some.
  by apply extractChannel_chars in Hc.
Qed.

Lemma normalizeAsset_Some (asset : RawAsset) (a : Asset) :
  normalizeAsset asset = Some a →
  a_raw a = asset ∧ a_filename a = asset_name asset ∧ a_type a ≠ ""
  ∧ platforms_detect (asset_name asset) = JStr (a_type a).
Proof.
  unfold normalizeAsset.
  destruct (platforms_detect (asset_name asset)) as [| |t] eqn:Hd; simpl; try done.
  destruct (String.eqb t "") eqn:Ht; simpl; [done|].
  intros [= <-]. simpl. split_and!; try done. by apply String.eqb_neq.
Qed.

(** X3: the platforms of a version are the assets of the release that
    [platforms.detect] recognises by name, in the order of the release,
    each with the platform detected as its type; the other assets are
    left out. *)
Theorem version_platforms (r : Release) (f : option string) (v : Version) :
  normalizeVersion r f = Normal (Some v) →
  map a_raw (platforms v)
  = List.filter (λ a, truthy (platforms_detect (asset_name a))) (assets r)
  ∧ Forall (λ a, a_filename a = asset_name (a_raw a) ∧ a_type a ≠ ""
                 ∧ platforms_detect (a_filename a) = JStr (a_type a))
           (platforms v).
Proof.
  intros (_ & _ & _ & _ & _ & _ & ->)%normalizeVersion_Some.
  unfold compact. induction (assets r) as [|asset l [IH1 IH2]]; simpl; [done|].
  change (list_omap _ _ id (map normalizeAsset l))
    with (omap id (map normalizeAsset l)).
  destruct (normalizeAsset asset) as [a|] eqn:Ha; simpl.
  - pose proof (normalizeAsset_Some _ _ Ha) as (Hraw & Hname & Htype & Hd).
    rewrite Hd. simpl. rewrite (eqb_empty_false _ Htype). simpl.
    split; [by rewrite Hraw, IH1|].
    constructor; [|done]. rewrite Hraw. split_and!; try done. by rewrite Hname.
  - assert (truthy (platforms_detect (asset_name asset)) = false) as ->; [|done].
    unfold normalizeAsset in Ha.
    by destruct (truthy (platforms_detect (asset_name asset))).
Qed.

Lemma mapM_Throw {A B} (g : A → completion B) (l : list A) (e : exn) :
  mapM g l = Throw e → ∃ x, x ∈ l ∧ g x = Throw e.
Proof.
  induction l as [|x l IH]; simpl; [done|].
  intros [He | (y & Hy & He)]%bind_Throw.
  - exists x. split; [apply list_elem_of_here | done].
  - apply bind_Throw in He as [He | (? & _ & [=])].
    destruct (IH He) as (z & Hz & Hgz). exists z. split; [|done].
    by apply list_elem_of_further.
Qed.

Lemma Versions_list_bind (this : Versions) :
  Versions_list this = normalized this ≫= Array_sort compareVersions.
Proof.
  unfold Versions_list, normalized.
  by destruct (mapM _ (backend_releases this)).
Qed.

(** Once the backend has handed over its releases, [list] fails in two
    ways only: on a tag filter that is no regular expression, or on a tag
    that is no semantic version. *)
Lemma Versions_list_failures (this : Versions) (e : exn) :
  Versions_list this = Throw e →
  (∃ p, tagNameFilter this = Some p ∧ p ≠ "" ∧ RegExp_new p = None
        ∧ e = SyntaxError p
        ∧ ∃ r, r ∈ backend_releases this ∧ draft r = false)
  ∨ (∃ t, e = InvalidVersion t ∧ semver_parse t = None).
Proof.
  unfold Versions_list. intros [He | (vs & Hvs & He)]%bind_Throw.
  - left. apply mapM_Throw in He as (r & Hr & He).
    pose proof (normalizeVersion_Throw _ _ _ He) as (p & Hf & Hp & Hnew & ->).
    exists p. split_and!; try done. exists r. split; [done|].
    unfold normalizeVersion in He. by destruct (draft r).
  - right. apply Array_sort_Throw in He as (t & -> & Ht & _). eauto.
Qed.

(** X4: [list], on a backend whose [releases()] may be rejected, fails in
    three ways only: with the reason the backend was rejected with, with
    the SyntaxError of a tag filter that is no regular expression (and
    then the backend answered and some release is not a draft), or with
    the comparator's error for a tag that is no semantic version. The
    TypeError of a null match is not among them unless the backend itself
    raised it. *)
Theorem list_on_failures (releases : completion (list Release))
    (f : option string) (e : exn) :
  list_on releases f = Throw e →
  releases = Throw e
  ∨ (∃ p rs r, f = Some p ∧ p ≠ "" ∧ RegExp_new p = None ∧ e = SyntaxError p
               ∧ releases = Normal rs ∧ r ∈ rs ∧ draft r = false)
  ∨ (∃ t, e = InvalidVersion t ∧ semver_parse t = None).
Proof.
  unfold list_on. destruct releases as [rs|e']; simpl.
  - intros [(p & Hf & Hp & Hnew & -> & r & Hr & Hd) | Ht]%Versions_list_failures.
    + right. left. exists p, rs, r. simpl in *. by split_and!.
    + by right; right.
  - intros [= ->]. by left.
Qed.

Lemma normalized_cons (this : Versions) (r : Release) (rs : list Release) :
  backend_releases this = r :: rs →
  normalized this
  = (o ← normalizeVersion r (tagNameFilter this);
     vs ← normalized {| backend_releases := rs; tagNameFilter := tagNameFilter this |};
     Normal (match o with Some v => v :: vs | None => vs end)).
Proof.
  unfold normalized. intros ->. simpl.
  destruct (normalizeVersion r (tagNameFilter this)) as [o|]; simpl; [|done].
  destruct (mapM _ rs) as [vs|]; simpl; [|done].
  by destruct o.
Qed.

(** Releases that normalise to nothing can be taken out of the catalogue. *)
Lemma normalized_drop (f : option string) (keep_release : Release → bool)
    (rs : list Release) :
  (∀ r, keep_release r = false → normalizeVersion r f = Normal None) →
  normalized {| backend_releases := List.filter keep_release rs; tagNameFilter := f |}
  = normalized {| backend_releases := rs; tagNameFilter := f |}.
Proof.
  intros Hdrop. induction rs as [|r rs IH]; [done|].
  rewrite (normalized_cons {| backend_releases := r :: rs |} r rs) by done.
  cbn [List.filter tagNameFilter]. destruct (keep_release r) eqn:Hr.
  - rewrite (normalized_cons {| backend_releases := r :: _ |} r
               (List.filter keep_release rs)) by done.
    cbn [tagNameFilter]. by rewrite IH.
  - rewrite (Hdrop r Hr), IH. simpl.
    by destruct (normalized {| backend_releases := rs |}).
Qed.

(** X5: drafts do not count: [list] answers on a catalogue as it does on
    the same catalogue without its draft releases, failures included. *)
Theorem Versions_list_without_drafts (this : Versions) :
  Versions_list (without_drafts this) = Versions_list this.
Proof.
  rewrite !Versions_list_bind. f_equal.
  destruct this as [rs f]. unfold without_drafts. cbn [backend_releases tagNameFilter].
  apply normalized_drop. intros r Hr. unfold normalizeVersion.
  by destruct (draft r).
Qed.

(** X6: releases whose tag the filter does not match do not count
    either: with a filter that compiles, [list] answers as it does on the
    catalogue restricted to the releases the filter matches. *)
Theorem Versions_list_only_matching (this : Versions) (p : string) (regex : RegExp) :
  tagNameFilter this = Some p → p ≠ "" → RegExp_new p = Some regex →
  Versions_list (only_matching regex this) = Versions_list this.
Proof.
  intros Hf Hp Hnew. rewrite !Versions_list_bind. f_equal.
  destruct this as [rs f]. unfold only_matching. simpl in *. subst f.
  apply normalized_drop. intros r Hr. unfold normalizeVersion, new_RegExp.
  destruct (draft r); [done|]. simpl.
  rewrite (eqb_empty_false _ Hp), Hnew. simpl. by rewrite Hr.
Qed.

Lemma normalized_no_filter (this : Versions) :
  falsy_str (tagNameFilter this) = true →
  ∃ vs, normalized this = Normal vs
    ∧ map version vs
      = map (λ r, strip_v (tag_name r))
          (List.filter (λ r, negb (draft r)) (backend_releases this)).
Proof.
  destruct this as [rs f]. simpl. intros Hf.
  induction rs as [|r rs (vs & Hvs & Hmap)]; [by exists []|].
  rewrite (normalized_cons {| backend_releases := r :: rs |} r rs) by done.
  cbn [tagNameFilter backend_releases List.filter] in *. rewrite Hvs.
  unfold normalizeVersion, normalizeTag, extractChannel. rewrite Hf.
  destruct (draft r); simpl; [by exists vs|].
  eexists. split; [done|]. simpl. by rewrite Hmap.
Qed.

(** X7: without a tag filter, [list] (when it returns) has one version
    for each release that is not a draft, and the version strings are the
    tag names of those releases with one leading [v] removed; only the
    order may differ. *)
Theorem Versions_list_no_filter (this : Versions) (out : list Version) :
  falsy_str (tagNameFilter this) = true →
  Versions_list this = Normal out →
  map version out
  ≡ₚ map (λ r, strip_v (tag_name r))
       (List.filter (λ r, negb (draft r)) (backend_releases this)).
Proof.
  intros Hf. rewrite Versions_list_bind.
  destruct (normalized_no_filter this Hf) as (vs & -> & <-). simpl.
  intros (Hperm & _)%Array_sort_Normal. by rewrite Hperm.
Qed.

End Normalised.

(** ** Order, selection and resolution *)

Section Selection.
Context {deps : VersionsDeps}.

Lemma compareMain_opp (x y : SemVer) :
  compareMain y x = CompOpp (compareMain x y).
Proof.
  destruct x as [a b c], y as [a' b' c']. unfold compareMain; simpl.
  by_cases_on_compare; subst; simpl; try done; lia.
Qed.

(** X9: the comparator is consistent: where it returns, its value is -1,
    0 or 1, swapping the arguments negates it, and it is 0 exactly for two
    tags that parse to the same version. *)
Theorem compareVersions_antisym (a b : Version) (c : Z) :
  compareVersions a b = Normal c →
  compareVersions b a = Normal (- c)
  ∧ (c = -1 ∨ c = 0 ∨ c = 1)
  ∧ (c = 0 ↔ semver_parse (tag a) = semver_parse (tag b)).
Proof.
  unfold compareVersions, semver_gt, semver_lt, semver_compare.
  destruct (semver_parse (tag a)) as [x|]; [|done].
  destruct (semver_parse (tag b)) as [y|]; [|done].
  simpl. rewrite (compareMain_opp x y).
  pose proof (compareMain_eq x y) as Heq.
  destruct (compareMain x y) eqn:Hc; simpl; intros [= <-];
    (split; [done|]); (split; [auto|]).
  - split; [intros _; f_equal; by apply Heq | done].
  - split; [done|]. intros [= Hxy]. apply Heq in Hxy. congruence.
  - split; [done|]. intros [= Hxy]. apply Heq in Hxy. congruence.
Qed.

Lemma descending_sublist (l k : list Version) :
  l `sublist_of` k → descending k → descending l.
Proof.
  unfold descending. induction 1 as [|x l k Hs IH|x l k Hs IH]; [done|..].
  - rewrite !StronglySorted_cons. intros [Hx Hk]. split; [|by apply IH].
    rewrite Forall_forall in *. intros y Hy. apply Hx.
    by eapply elem_of_sublist.
  - rewrite StronglySorted_cons. intros [_ Hk]. by apply IH.
Qed.

Lemma Versions_list_descending (this : Versions) (vs : list Version) :
  Versions_list this = Normal vs → descending vs.
Proof.
  rewrite Versions_list_bind. intros Hvs. inv_bind Hvs.
  by apply Array_sort_Normal in Hvs as (_ & ? & _).
Qed.

(** X10: whatever the options, the versions [filter] returns are a
    subsequence of those of [list], and so come newest first. *)
Theorem Versions_filter_ordered (this : Versions) (opts : option loc) (h : heap)
    (out : list Version) :
  (Versions_filter this opts h).2 = Normal out →
  ∃ vs, Versions_list this = Normal vs ∧ out `sublist_of` vs ∧ descending out.
Proof.
  rewrite Versions_filter_completion. intros Hout. inv_bind Hout.
  apply filterM_keep_Normal in Hout as ->.
  exists a. split; [done|].
  pose proof (filter_sublist (selected (requested opts h)) a) as Hsub.
  split; [done|]. eapply descending_sublist; [done|].
  by eapply Versions_list_descending.
Qed.

Lemma Versions_resolve_Normal (this : Versions) (opts : option loc) (h : heap)
    (v : Version) :
  (Versions_resolve this opts h).2 = Normal v →
  ∃ vs rest, Versions_list this = Normal vs
    ∧ List.filter (selected (requested opts h)) vs = v :: rest.
Proof.
  unfold Versions_resolve.
  pose proof (Versions_filter_completion this opts h) as Hf.
  destruct (Versions_filter this opts h) as [h' r]. simpl in *. subst r.
  intros Hv. inv_bind Hv. inv_bind Ha.
  apply filterM_keep_Normal in Ha as ->.
  exists a0. destruct (List.filter _ a0) as [|w rest] eqn:Hsel.
  - by destruct opts.
  - injection Hv as ->. by exists rest.
Qed.

(** X11: the version [resolve] returns is a selected version of [list] of
    the greatest precedence: every other selected version has a tag of
    lower or equal precedence. *)
Theorem Versions_resolve_newest (this : Versions) (opts : option loc) (h : heap)
    (v : Version) :
  (Versions_resolve this opts h).2 = Normal v →
  ∃ vs, Versions_list this = Normal vs
    ∧ v ∈ vs ∧ selected (requested opts h) v = true
    ∧ ∀ w, w ∈ vs → selected (requested opts h) w = true →
           w = v ∨ semver_gte v w.
Proof.
  intros (vs & rest & Hvs & Hsel)%Versions_resolve_Normal.
  exists vs. split; [done|].
  assert (∀ w, w ∈ v :: rest ↔ w ∈ vs ∧ selected (requested opts h) w = true) as Hin.
  { intros w. rewrite <- Hsel, !list_elem_of_In. apply List.filter_In. }
  destruct (proj1 (Hin v)) as [Hv Hs]; [apply list_elem_of_here|].
  split_and!; try done.
  intros w Hw Hsw.
  assert (w ∈ v :: rest) as Hw' by (by apply Hin).
  apply elem_of_cons in Hw' as [-> | Hrest]; [by left|]. right.
  assert (descending (v :: rest)) as Hd.
  { rewrite <- Hsel. eapply descending_sublist; [apply filter_sublist|].
    by eapply Versions_list_descending. }
  apply StronglySorted_cons in Hd as [Hall _].
  by eapply Forall_forall in Hall.
Qed.

Lemma filterM_all {A} (p : A → completion bool) (l : list A) :
  (∀ x, p x = Normal true) → filterM p l = Normal l.
Proof.
  intros Hp. induction l as [|x l IH]; simpl; [done|]. by rewrite Hp, IH.
Qed.

(** X12: with the wildcard channel, no platform and no tag (or "latest"),
    [filter] returns what [list] returns, failure or versions. *)
Theorem Versions_filter_wildcard (this : Versions) (l : loc) (o : Options) (h : heap) :
  h !! l = Some o →
  o_channel o = JStr "*" →
  o_tag o = JUndefined ∨ o_tag o = JStr "latest" →
  truthy (o_platform o) = false →
  (Versions_filter this (Some l) h).2 = Versions_list this.
Proof.
  intros Hl Hc Ht Hp. rewrite Versions_filter_completion.
  destruct (Versions_list this) as [vs|e]; [|done]. simpl.
  apply filterM_all. intros v. unfold requested.
  rewrite (deref_Some _ _ _ Hl).
  assert (truthy (o_platform (defaults o)) = false) as Hp'.
  { unfold defaults. simpl. by destruct (o_platform o). }
  unfold detect_platform, keep. rewrite Hp'. rewrite Hp'.
  unfold defaults. cbn [o_channel o_tag]. rewrite Hc.
  cbn [loose_eq_str]. change (String.eqb "*" "*") with true. cbn [negb andb].
  by destruct Ht as [-> | ->].
Qed.

(** X13: [get(tag)] answers with a version of the channel "stable" only,
    whose tag satisfies the requested range unless "latest" is asked for;
    when nothing is selected, the error names the tag asked for. *)
Theorem get_stable (this : Versions) (t : string) (h : heap) :
  (∀ v, (get this t h).2 = Normal v →
     channel v = "stable"
     ∧ (t = "latest" ∨ semver_satisfies (tag v) (JStr t) = Normal true))
  ∧ (∀ vs, Versions_list this = Normal vs →
       Forall (λ v, channel v ≠ "stable") vs →
       (get this t h).2 = Throw (Error ("Version not found: " +:+ t))).
Proof.
  unfold get, alloc.
  set (o := {| o_tag := JStr t; o_platform := JUndefined; o_channel := JUndefined |}).
  set (l := fresh (dom h)). set (h0 := <[l := o]> h).
  assert (requested (Some l) h0
          = {| o_tag := JStr t; o_platform := JNull; o_channel := JStr "stable" |})
    as Hreq.
  { unfold requested, h0. by rewrite deref_insert. }
  split.
  - intros v (vs & rest & _ & Hsel)%Versions_resolve_Normal.
    assert (selected (requested (Some l) h0) v = true) as Hv.
    { apply (List.filter_In _ v vs). rewrite Hsel. by left. }
    rewrite Hreq in Hv. unfold selected in Hv. cbn [o_channel o_platform o_tag] in Hv.
    cbn [loose_eq_str truthy negb] in Hv.
    change (String.eqb "stable" "*") with false in Hv.
    rewrite orb_false_l, orb_true_l, andb_true_r in Hv.
    apply andb_true_iff in Hv as [Hc%String.eqb_eq Ht]. split; [done|].
    apply orb_true_iff in Ht as [Ht%String.eqb_eq | Ht]; [by left | right].
    unfold returns_true in Ht.
    by destruct (semver_satisfies (tag v) (JStr t)) as [[]|].
  - intros vs Hvs Hall.
    assert ((Versions_filter this (Some l) h0).2 = Normal []) as Hempty.
    { rewrite Versions_filter_completion, Hvs, Hreq. simpl.
      clear Hvs. induction Hall as [|v vs Hv _ IH]; simpl; [done|].
      rewrite IH. unfold keep. cbn [o_channel loose_eq_str].
      change (String.eqb "stable" "*") with false.
      apply not_eq_sym, String.eqb_neq in Hv. by rewrite Hv. }
    rewrite (Versions_resolve_not_found _ _ _ Hempty).
    unfold h0. by rewrite deref_insert.
Qed.

End Selection.

(** ** Channel counts *)

Section Counts.
Context {deps : VersionsDeps}.

Lemma total_count_insert (m : gmap string Summary) (c : string) (s : Summary) :
  total_count (<[c := s]> m)
  = versions_count s + total_count m
    - match m !! c with Some s0 => versions_count s0 | None => 0 end.
Proof.
  unfold total_count.
  assert (∀ (j1 j2 : string) (z1 z2 : Summary) (y : Z),
            versions_count z1 + (versions_count z2 + y)
            = versions_count z2 + (versions_count z1 + y)) as Hcomm by (intros; lia).
  destruct (m !! c) as [s0|] eqn:Hm.
  - rewrite <- insert_delete_eq.
    rewrite map_fold_insert_L; [|by intros; apply Hcomm | apply lookup_delete_eq].
    rewrite (map_fold_delete_L _ _ c s0 m); [lia | by intros; apply Hcomm | done].
  - rewrite map_fold_insert_L; [lia | by intros; apply Hcomm | done].
Qed.

Lemma total_count_step (m : gmap string Summary) (v : Version) :
  total_count (channels_step m v)
  = total_count m
    + (if bool_decide (m !! channel v = None) && inherited (channel v) then 0 else 1).
Proof.
  unfold channels_step.
  destruct (bool_decide (m !! channel v = None) && inherited (channel v)); [lia|].
  rewrite total_count_insert.
  destruct (m !! channel v) as [s0|]; simpl; case_match; simpl; lia.
Qed.

(** X14: the counts of the summaries add up to the number of versions of
    [list] whose channel is not a name every object inherits; when no
    channel is such a name, to the number of versions of [list]. *)
Theorem Versions_channels_total (this : Versions) (vs : list Version) :
  Versions_list this = Normal vs →
  ∃ m, Versions_channels this = Normal m
    ∧ total_count m
      = Z.of_nat (length (List.filter (λ v, negb (inherited (channel v))) vs))
    ∧ (Forall (λ v, inherited (channel v) = false) vs →
       total_count m = Z.of_nat (length vs)).
Proof.
  intros Hvs. unfold Versions_channels. rewrite Hvs. simpl.
  eexists. split; [done|].
  assert (total_count (fold_left channels_step vs ∅)
          = Z.of_nat (length (List.filter (λ v, negb (inherited (channel v))) vs)))
    as Htotal.
  { clear Hvs. induction vs as [|v vs IH] using rev_ind; [done|].
    rewrite fold_left_app. simpl. rewrite total_count_step, IH.
    rewrite List.filter_app, length_app. cbn [List.filter].
    destruct (channels_fold_spec vs) as [Hdom _].
    destruct (inherited (channel v)) eqn:Hinh; simpl.
    - rewrite bool_decide_eq_true_2; [simpl; lia|].
      destruct (fold_left channels_step vs ∅ !! channel v) eqn:Hm; [|done].
      destruct (proj1 (Hdom (channel v))) as [_ ?]; [by eexists | congruence].
    - rewrite andb_false_r. lia. }
  split; [done|]. intros Hall. rewrite Htotal. do 2 f_equal.
  clear Htotal Hvs. induction Hall as [|v vs Hv _ IH]; simpl; [done|].
  by rewrite Hv, IH.
Qed.

End Counts.

(** ** The update handler, further *)

Section UpdateMore.
Context {deps : VersionsDeps} {nuts_deps : NutsDeps}.

Lemma Versions_filter_descending (this : Versions) (opts : option loc) (h : heap)
    (out : list Version) :
  (Versions_filter this opts h).2 = Normal out → descending out.
Proof.
  rewrite Versions_filter_completion. intros Hout. inv_bind Hout.
  apply filterM_keep_Normal in Hout as ->.
  eapply descending_sublist; [apply filter_sublist|].
  by eapply Versions_list_descending.
Qed.

(** X15: a [version] parameter that is empty or starts with a dash, and
    after it an empty [platform] parameter, are refused as missing before
    the catalogue is asked and before any options object is made. *)
Theorem onUpdate_requires (versions : Versions) (req : Request) (h : heap) :
  ((params_version req = "" ∨ ∃ s, params_version req = String "-" s) →
   onUpdate versions req h = (h, Throw (requires "version")))
  ∧ (∀ a s, params_version req = String a s → a ≠ "-"%char →
       params_platform req = "" →
       onUpdate versions req h = (h, Throw (requires "platform"))).
Proof.
  unfold onUpdate. rewrite split_first_until. split.
  - by intros [-> | [s ->]].
  - intros a s -> Ha ->. simpl.
    apply Ascii.eqb_neq in Ha. by rewrite Ha.
Qed.

(** X16: an answer with an update names the tag of the newest qualifying
    version, which is not the tag the client reported and is of greater or
    equal precedence than every other qualifying version; the answer
    without update comes with no qualifying version or with the newest one
    bearing the client's tag. *)
Theorem onUpdate_answer (versions : Versions) (req : Request) (h : heap) :
  let tag := split_first "-" (params_version req) in
  let opts := {| o_tag := JStr (">=" +:+ tag);
                 o_platform := platforms_detect (params_platform req);
                 o_channel := JStr (if falsy_str (params_channel req) then "*"
                                    else default "" (params_channel req)) |} in
  let qualifying := (Versions_filter versions (Some (fresh (dom h)))
                       (<[fresh (dom h) := opts]> h)).2 in
  (∀ info, (onUpdate versions req h).2 = Normal (Status200 info) →
     ∃ latest rest, qualifying = Normal (latest :: rest)
       ∧ u_name info = Versions.tag latest
       ∧ u_name info ≠ tag
       ∧ Forall (semver_gte latest) rest)
  ∧ (∀ text, (onUpdate versions req h).2 = Normal (Status204 text) →
       text = "No updates"
       ∧ (qualifying = Normal []
          ∨ ∃ latest rest, qualifying = Normal (latest :: rest)
                           ∧ Versions.tag latest = tag)).
Proof.
  intros tag opts qualifying. unfold onUpdate, alloc.
  fold tag. destruct (String.eqb tag ""); [by split|].
  destruct (String.eqb (params_platform req) ""); [by split|].
  fold opts.
  pose proof (Versions_filter_descending versions (Some (fresh (dom h)))
                (<[fresh (dom h) := opts]> h)) as Hdesc.
  fold qualifying in Hdesc. subst qualifying.
  destruct (Versions_filter versions _ _) as [h1 r]. simpl in *.
  destruct r as [vs|e]; simpl; [|by split].
  specialize (Hdesc vs eq_refl).
  unfold update_response.
  destruct vs as [|latest rest]; [split; [done | intros text [= <-]; auto]|].
  destruct (String.eqb (Versions.tag latest) tag) eqn:Htag.
  - split; [done|]. intros text [= <-]. split; [done|]. right.
    exists latest, rest. split; [done | by apply String.eqb_eq].
  - split; [|by destruct (published_at latest)].
    destruct (published_at latest); [|done]. intros info [= <-]. simpl.
    exists latest, rest. split_and!; try done.
    + by apply String.eqb_neq.
    + by apply StronglySorted_cons in Hdesc as [? _].
Qed.

Lemma update_response_same (req1 req2 : Request) (platform : jsval)
    (channel tag ft1 ft2 : string) (vs : list Version) :
  same_answer (update_response req1 platform channel tag ft1 vs)
              (update_response req2 platform channel tag ft2 vs).
Proof.
  unfold update_response. destruct vs as [|latest rest]; [done|].
  destruct (String.eqb (Versions.tag latest) tag); [done|].
  by destruct (published_at latest).
Qed.

(** X17: the pre-release suffix of the version the client reports is not
    looked at: for the same platform and channel, a request for a version
    followed by a dash and any text gets the same failure, the same answer
    without update, or an update of the same name, notes, channel and date
    as a request for the version alone, whatever the two addresses are;
    the options object made on the way is the same. *)
Theorem onUpdate_ignores_suffix (versions : Versions) (req1 req2 : Request)
    (t s : string) (h : heap) :
  params_version req1 = t +:+ String "-" s →
  params_version req2 = t →
  params_platform req1 = params_platform req2 →
  params_channel req1 = params_channel req2 →
  (onUpdate versions req1 h).1 = (onUpdate versions req2 h).1
  ∧ same_answer (onUpdate versions req1 h).2 (onUpdate versions req2 h).2.
Proof.
  intros Hv1 Hv2 Hp Hc. unfold onUpdate.
  rewrite Hv1, Hv2, Hp, Hc, !split_first_until, until_append by done.
  destruct (String.eqb _ ""); [done|].
  destruct (String.eqb (params_platform req2) ""); [done|].
  destruct (alloc _ h) as [l h0].
  destruct (Versions_filter versions (Some l) h0) as [h1 [vs|e]]; simpl; [|done].
  split; [done|]. apply update_response_same.
Qed.

End UpdateMore.

(** ** Notes, downloads and the feed *)

Section HandlersFacts.
Context {deps : VersionsDeps} {nuts_deps : NutsDeps} {handler_deps : HandlerDeps}.

(** X18: when the client accepts neither of the two types, [onServeNotes]
    never sends notes; wherever an accepted type would have been served,
    the fallback fails on the unbound name [releaseNotes]. *)
Theorem onServeNotes_not_acceptable (versions : Versions) (p : option string)
    (h : heap) :
  (∀ body, (onServeNotes versions p NotAcceptable h).2 ≠ Sent body)
  ∧ (∀ text, (onServeNotes versions p TextPlain h).2 = Sent (NotesText text) →
       (onServeNotes versions p NotAcceptable h).2
       = Next (ReferenceError "releaseNotes")).
Proof.
  unfold onServeNotes, alloc.
  destruct (Versions_filter versions _ _) as [h1 r]. simpl.
  destruct r as [[|latest rest]|e];
    (split; [intros body; discriminate
            | intros text Ht; first [reflexivity | discriminate Ht]]).
Qed.

(** The notes served as text merge every qualifying version, the oldest
    included, with each tag as a title; with no qualifying version the
    handler fails with its own error instead of sending empty notes. *)
Lemma onServeNotes_text (versions : Versions) (p : option string) (h : heap) :
  let opts := {| o_tag := JStr (if falsy_str p then "*" else ">=" +:+ default "" p);
                 o_platform := JUndefined; o_channel := JStr "*" |} in
  let qualifying := (Versions_filter versions (Some (fresh (dom h)))
                       (<[fresh (dom h) := opts]> h)).2 in
  (∀ vs, qualifying = Normal vs → vs ≠ [] →
     (onServeNotes versions p TextPlain h).2 = Sent (NotesText (notes_merge vs true)))
  ∧ (qualifying = Normal [] →
     ∀ accepted, (onServeNotes versions p accepted h).2
                 = Next (Raised (Error "No versions matching")))
  ∧ (∀ e, qualifying = Throw e →
     ∀ accepted, (onServeNotes versions p accepted h).2 = Next (Raised e)).
Proof.
  intros opts qualifying. unfold onServeNotes, alloc. fold opts.
  subst qualifying.
  destruct (Versions_filter versions _ _) as [h1 r]. simpl.
  split_and!.
  - intros vs -> Hne. by destruct vs.
  - by intros ->.
  - by intros e ->.
Qed.

Lemma find_filename_Some (f : string) (l : list Asset) (a : Asset) :
  find_filename f l = Some a →
  a_filename a = f
  ∧ ∃ l1 l2, l = l1 ++ a :: l2 ∧ Forall (λ b, a_filename b ≠ f) l1.
Proof.
  unfold find_filename. induction l as [|b l IH]; simpl; [done|].
  destruct (String.eqb (a_filename b) f) eqn:Hb.
  - intros [= <-]. apply String.eqb_eq in Hb. split; [done|].
    by exists [], l.
  - intros (Ha & l1 & l2 & -> & Hl1)%IH. split; [done|].
    exists (b :: l1), l2. split; [done|].
    constructor; [by apply String.eqb_neq | done].
Qed.

(** X19: without a file name, a platform or a recognised user agent,
    [onDownload] fails at once: the catalogue is not asked and no options
    object is made. *)
Theorem onDownload_no_platform (versions : Versions) (req : DownloadRequest)
    (h : heap) :
  falsy_str (dl_filename req) = true →
  falsy_str (dl_platform req) = true →
  isMac req = false → isWindows req = false →
  isLinux req = false → isLinux64 req = false →
  onDownload versions req h
  = (h, Throw (Error "No platform specified and impossible to detect one")).
Proof.
  intros Hf Hp Hmac Hwin Hlin Hlin64. unfold onDownload, useragent_platform.
  rewrite Hmac, Hwin, Hlin, Hlin64.
  assert (∀ o, falsy_str o = true → truthy (param o) = false) as Hfalsy.
  { intros [s|]; simpl; [by intros -> | done]. }
  rewrite (Hfalsy _ Hf), (Hfalsy _ Hp). cbn [negb andb].
  rewrite (Hfalsy _ Hp). reflexivity.
Qed.

Lemma filter_head (g : Version → bool) (vs : list Version) (v : Version)
    (rest : list Version) :
  List.filter g vs = v :: rest →
  ∃ k1 k2, vs = k1 ++ v :: k2 ∧ g v = true ∧ Forall (λ w, g w = false) k1.
Proof.
  induction vs as [|w vs IH]; simpl; [done|].
  destruct (g w) eqn:Hw.
  - intros [= -> _]. by exists [], vs.
  - intros (k1 & k2 & -> & Hv & Hk1)%IH. exists (w :: k1), k2.
    split_and!; try done. by constructor.
Qed.

Lemma meets_download (req : DownloadRequest) (w : Version) :
  meets {| o_tag := JStr (download_tag req); o_platform := JNull;
           o_channel := if negb (String.eqb (download_tag req) "latest")
                        then JStr "*" else param (dl_channel req) |} w
  ↔ download_channel_ok req w ∧ download_tag_ok req w.
Proof.
  unfold meets, channel_condition, platform_condition, tag_condition,
    download_channel_ok, download_tag_ok, wanted_channel, wanted_platform,
    wanted_tag. cbn [o_tag o_platform o_channel or_default truthy].
  destruct (String.eqb (download_tag req) "latest") eqn:Ht; cbn [negb or_default].
  - apply String.eqb_eq in Ht. rewrite Ht.
    destruct (dl_channel req) as [c|]; cbn [param or_default].
    + split.
      * intros ([[= ->] | [= ->]] & _ & _); split; auto.
      * intros [[? | [-> | ->]] _]; [done | auto..].
    + split.
      * intros ([[=] | [= <-]] & _ & _); split; auto.
      * intros [[? | ->] _]; [done | auto].
  - apply String.eqb_neq in Ht. split.
    + intros (_ & _ & [[= ?] | Hs]); [done|]. split; auto.
    + intros [_ [? | Hs]]; [done|]. split_and!; auto.
Qed.

(** X20: a download by file name serves the first asset of that name of
    the version it resolved, and that version is the first version of
    [list] that meets the channel and tag conditions of the request,
    whatever the platforms of its assets: no earlier version of [list]
    meets both conditions. *)
Theorem onDownload_by_filename (versions : Versions) (req : DownloadRequest)
    (f : string) (h : heap) (v : Version) (a : Asset) :
  dl_filename req = Some f → f ≠ "" →
  (onDownload versions req h).2 = Normal (v, a) →
  a_filename a = f
  ∧ (∃ l1 l2, platforms v = l1 ++ a :: l2 ∧ Forall (λ b, a_filename b ≠ f) l1)
  ∧ ∃ vs k1 k2, Versions_list versions = Normal vs ∧ vs = k1 ++ v :: k2
      ∧ download_channel_ok req v ∧ download_tag_ok req v
      ∧ Forall (λ w, ¬ (download_channel_ok req w ∧ download_tag_ok req w)) k1.
Proof.
  intros Hf Hne. unfold onDownload, alloc. rewrite Hf.
  cbn [param truthy]. rewrite (eqb_empty_false _ Hne). cbn [negb andb].
  assert ((if falsy_str (dl_tag req) then "latest" else default "" (dl_tag req))
          = download_tag req) as ->.
  { unfold download_tag. by destruct (dl_tag req) as [[|c t]|]. }
  set (c := if negb (String.eqb (download_tag req) "latest") then JStr "*"
            else param (dl_channel req)).
  set (o := {| o_tag := JStr (download_tag req); o_platform := JNull; o_channel := c |}).
  set (l := fresh (dom h)). set (h0 := <[l := o]> h).
  pose proof (Versions_resolve_Normal versions (Some l) h0) as Hres.
  destruct (Versions_resolve versions (Some l) h0) as [h1 r]. simpl in *.
  intros Hva. inv_bind Hva.
  destruct (find_filename f (platforms a0)) as [a'|] eqn:Hfind; [|done].
  injection Hva as -> ->.
  apply find_filename_Some in Hfind as [Hname Hfirst].
  destruct (Hres v Ha) as (vs & rest & Hvs & Hsel).
  rewrite (requested_supplied (Some l) h0 o) in Hsel
    by (unfold supplied, h0; apply lookup_insert_eq).
  apply filter_head in Hsel as (k1 & k2 & -> & Hv & Hk1).
  split_and!; try done. exists (k1 ++ v :: k2), k1, k2.
  assert (∀ w, selected {| o_tag := wanted_tag o; o_platform := wanted_platform o;
                           o_channel := wanted_channel o |} w = true
               ↔ download_channel_ok req w ∧ download_tag_ok req w) as Hiff.
  { intros w. rewrite selected_meets. apply meets_download. }
  apply Hiff in Hv as [Hc Ht]. split_and!; try done.
  eapply Forall_impl; [exact Hk1|]. intros w Hw Hboth.
  apply Hiff in Hboth. congruence.
Qed.

Lemma filterM_pure {A} (p : A → completion bool) (q : A → bool) (l : list A) :
  (∀ x, p x = Normal (q x)) → filterM p l = Normal (List.filter q l).
Proof.
  intros Hp. induction l as [|x l IH]; simpl; [done|].
  rewrite Hp, IH. simpl. by destruct (q x).
Qed.

(** X21: the feed has one item for each version of [list] on the channel
    of the route, in the order of [list] and titled with its tag; the
    channel "all", the wildcard, or none, stand for every channel. *)
Theorem feed_items_channel (versions : Versions) (fullUrl : string)
    (p : option string) (h : heap) :
  let channel_name := if falsy_str p then "all" else default "" p in
  (feed_items versions fullUrl p h).2
  = (vs ← Versions_list versions;
     Normal (map (feed_item fullUrl)
               (List.filter (λ v, String.eqb channel_name "all"
                                  || String.eqb channel_name "*"
                                  || String.eqb channel_name (channel v)) vs))).
Proof.
  intros channel_name. unfold feed_items, alloc. fold channel_name.
  set (c := if String.eqb channel_name "all" then "*" else channel_name).
  set (o := {| o_tag := JUndefined; o_platform := JUndefined; o_channel := JStr c |}).
  set (l := fresh (dom h)). set (h0 := <[l := o]> h).
  pose proof (Versions_filter_completion versions (Some l) h0) as Hf.
  destruct (Versions_filter versions (Some l) h0) as [h1 r]. simpl in *. subst r.
  destruct (Versions_list versions) as [vs|e]; [|done]. simpl.
  rewrite (filterM_pure _ (λ v, String.eqb channel_name "all"
                                || String.eqb channel_name "*"
                                || String.eqb channel_name (channel v))); [done|].
  intros v. unfold requested, h0. rewrite deref_insert.
  unfold keep. cbn [defaults detect_platform o o_tag o_platform o_channel truthy].
  cbn [o_tag o_platform o_channel loose_eq_str truthy andb].
  change (String.eqb "latest" "latest") with true.
  unfold c. destruct (String.eqb channel_name "all") eqn:Hall.
  - by change (String.eqb "*" "*") with true.
  - destruct (String.eqb channel_name "*"); [done|].
    by destruct (String.eqb _ (channel v)).
Qed.

End HandlersFacts.

(** ** The further properties on concrete catalogues *)

Section MoreExamples.
Import Sample Sample2.
#[local] Existing Instance sample_deps.
#[local] Existing Instance sample_nuts_deps.
#[local] Existing Instance sample_handler_deps.

Lemma version_tag_shape_witness :
  ∃ v, normalizeVersion beta_release None = Normal (Some v)
    ∧ occurs "-" (tag v) = false
    ∧ ∃ rest, version v = tag v +:+ rest ∧ (rest = "" ∨ ∃ r', rest = String "-" r').
Proof.
  eexists. split; [vm_compute; reflexivity|].
  apply (version_tag_shape (deps := sample_deps) beta_release None).
  vm_compute; reflexivity.
Defined.

Lemma version_channel_shape_witness :
  ∃ v, normalizeVersion beta_release None = Normal (Some v)
    ∧ occurs "-" (channel v) = false ∧ occurs "." (channel v) = false.
Proof.
  eexists. split; [vm_compute; reflexivity|].
  apply (version_channel_shape (deps := sample_deps) beta_release None).
  vm_compute; reflexivity.
Defined.

Lemma version_platforms_witness :
  ∃ v, normalizeVersion beta_release None = Normal (Some v)
    ∧ map a_raw (platforms v)
      = List.filter (λ a, truthy (platforms_detect (asset_name a))) (assets beta_release)
    ∧ Forall (λ a, a_filename a = asset_name (a_raw a) ∧ a_type a ≠ ""
                   ∧ platforms_detect (a_filename a) = JStr (a_type a))
             (platforms v).
Proof.
  eexists. split; [vm_compute; reflexivity|].
  apply (version_platforms (deps := sample_deps) beta_release None).
  vm_compute; reflexivity.
Defined.

(** A backend that is rejected, and one that answers to a filter that is
    no regular expression. *)
Lemma list_on_failures_witness :
  list_on (Throw (Error "ECONNRESET")) None = Throw (Error "ECONNRESET")
  ∧ list_on (Normal (backend_releases scenario)) (Some "(") = Throw (SyntaxError "(")
  ∧ (Normal (backend_releases scenario) = Throw (SyntaxError "(")
     ∨ (∃ p rs r, Some "(" = Some p ∧ p ≠ "" ∧ RegExp_new p = None
                  ∧ SyntaxError "(" = SyntaxError p
                  ∧ Normal (backend_releases scenario) = Normal rs
                  ∧ r ∈ rs ∧ draft r = false)
     ∨ (∃ t, SyntaxError "(" = InvalidVersion t ∧ semver_parse t = None)).
Proof.
  split; [reflexivity|].
  assert (list_on (Normal (backend_releases scenario)) (Some "(")
          = Throw (SyntaxError "(")) as He by (vm_compute; reflexivity).
  split; [exact He|].
  exact (list_on_failures (deps := sample_deps) _ _ _ He).
Defined.

Lemma Versions_list_only_matching_witness :
  (tagNameFilter filtered_scenario = Some pattern_v ∧ pattern_v ≠ ""
   ∧ RegExp_new pattern_v = Some tt)
  ∧ Versions_list (only_matching tt filtered_scenario)
    = Versions_list filtered_scenario.
Proof.
  assert (pattern_v ≠ "") as Hp by (vm_compute; discriminate).
  split; [by split_and!|].
  by apply (Versions_list_only_matching (deps := sample_deps)
              filtered_scenario pattern_v tt).
Defined.

Lemma Versions_list_no_filter_witness :
  ∃ out, falsy_str (tagNameFilter with_draft) = true
    ∧ Versions_list with_draft = Normal out
    ∧ map version out
      ≡ₚ map (λ r, strip_v (tag_name r))
           (List.filter (λ r, negb (draft r)) (backend_releases with_draft)).
Proof.
  eexists. split; [reflexivity|]. split; [vm_compute; reflexivity|].
  apply (Versions_list_no_filter (deps := sample_deps) with_draft);
    [reflexivity | vm_compute; reflexivity].
Defined.

Lemma compareVersions_antisym_witness :
  let a := sample_version "2.0.0" "stable" "B" 20 in
  let b := sample_version "1.10.0" "stable" "A" 10 in
  compareVersions a b = Normal (-1)
  ∧ compareVersions b a = Normal (- -1)
  ∧ (-1 = -1 ∨ -1 = 0 ∨ -1 = 1)
  ∧ (-1 = 0 ↔ semver_parse (tag a) = semver_parse (tag b)).
Proof.
  intros a b.
  assert (compareVersions a b = Normal (-1)) as Hc by (vm_compute; reflexivity).
  split; [exact Hc|].
  exact (compareVersions_antisym (deps := sample_deps) a b (-1) Hc).
Defined.

Lemma Versions_filter_ordered_witness :
  ∃ out, (Versions_filter scenario None ∅).2 = Normal out
    ∧ ∃ vs, Versions_list scenario = Normal vs ∧ out `sublist_of` vs ∧ descending out.
Proof.
  eexists. split; [vm_compute; reflexivity|].
  apply (Versions_filter_ordered (deps := sample_deps) scenario None ∅).
  vm_compute; reflexivity.
Defined.

Lemma Versions_resolve_newest_witness :
  let h : gmap nat Options :=
    {[ 0%nat := {| o_tag := JUndefined; o_platform := JUndefined;
                   o_channel := JStr "*" |} ]} in
  ∃ v, (Versions_resolve two_newer (Some 0%nat) h).2 = Normal v
    ∧ tag v = "3.0.0"
    ∧ ∃ vs, Versions_list two_newer = Normal vs
        ∧ v ∈ vs ∧ selected (requested (Some 0%nat) h) v = true
        ∧ ∀ w, w ∈ vs → selected (requested (Some 0%nat) h) w = true →
               w = v ∨ semver_gte v w.
Proof.
  intros h. eexists. split; [vm_compute; reflexivity|].
  split; [reflexivity|].
  apply (Versions_resolve_newest (deps := sample_deps) two_newer (Some 0%nat) h).
  vm_compute; reflexivity.
Defined.

Lemma Versions_filter_wildcard_witness :
  let o := {| o_tag := JUndefined; o_platform := JUndefined; o_channel := JStr "*" |} in
  let h : gmap nat Options := {[ 0%nat := o ]} in
  (h !! 0%nat = Some o ∧ o_channel o = JStr "*"
   ∧ (o_tag o = JUndefined ∨ o_tag o = JStr "latest")
   ∧ truthy (o_platform o) = false)
  ∧ (Versions_filter scenario (Some 0%nat) h).2 = Versions_list scenario.
Proof.
  intros o h.
  assert (h !! 0%nat = Some o) as Hl by reflexivity.
  split; [split_and!; auto|].
  apply (Versions_filter_wildcard (deps := sample_deps) scenario 0%nat o h Hl);
    auto.
Defined.

Lemma get_stable_witness :
  (∃ v, (get scenario "latest" ∅).2 = Normal v ∧ channel v = "stable")
  ∧ (∃ vs, Versions_list beta_only = Normal vs
       ∧ Forall (λ v, channel v ≠ "stable") vs
       ∧ (get beta_only ">=1.0.0" ∅).2 = Throw (Error "Version not found: >=1.0.0")).
Proof.
  split.
  - eexists. split; [vm_compute; reflexivity|].
    eapply (proj1 (get_stable (deps := sample_deps) scenario "latest" ∅)).
    vm_compute; reflexivity.
  - set (vs := [{| version := "2.0.0-beta.1"; tag := "2.0.0"; channel := "beta";
                   notes := "B"; published_at := Some 20; platforms := [] |}]).
    assert (Versions_list beta_only = Normal vs) as Hvs by (vm_compute; reflexivity).
    assert (Forall (λ v, channel v ≠ "stable") vs) as Hall.
    { repeat constructor. simpl. discriminate. }
    exists vs. split; [exact Hvs|]. split; [exact Hall|].
    exact (proj2 (get_stable (deps := sample_deps) beta_only ">=1.0.0" ∅) vs Hvs Hall).
Defined.

Lemma Versions_channels_total_witness :
  ∃ vs m, Versions_list scenario = Normal vs
    ∧ Versions_channels scenario = Normal m
    ∧ total_count m = 2.
Proof.
  eexists.
  destruct (Versions_channels_total (deps := sample_deps) scenario _
              ltac:(vm_compute; reflexivity)) as (m & Hm & Htotal & _).
  exists m. split; [vm_compute; reflexivity|]. split; [exact Hm|].
  rewrite Htotal. vm_compute; reflexivity.
Defined.

Lemma onUpdate_requires_witness :
  onUpdate scenario (with_version update_from_1 "-beta") ∅
  = (∅, Throw (requires "version"))
  ∧ onUpdate scenario {| fullUrl := ""; params_platform := ""; params_channel := None;
                         params_version := "1.0.0"; query_filetype := None |} ∅
    = (∅, Throw (requires "platform")).
Proof.
  split.
  - apply (proj1 (onUpdate_requires (deps := sample_deps) (nuts_deps := sample_nuts_deps)
                    scenario (with_version update_from_1 "-beta") ∅)).
    right. by exists "beta".
  - by apply (proj2 (onUpdate_requires (deps := sample_deps)
                       (nuts_deps := sample_nuts_deps) scenario _ ∅)
                "1"%char ".0.0").
Defined.

Lemma onUpdate_answer_witness :
  ∃ info, (onUpdate two_newer update_from_1 ∅).2 = Normal (Status200 info)
    ∧ u_name info = "3.0.0" ∧ u_name info ≠ "1.0.0".
Proof.
  eexists.
  match goal with |- ?Q ∧ _ => assert Q as Hq by (vm_compute; reflexivity) end.
  split; [exact Hq|]. split; [reflexivity|].
  pose proof (proj1 (onUpdate_answer (deps := sample_deps)
                       (nuts_deps := sample_nuts_deps) two_newer update_from_1 ∅)
                _ Hq) as (latest & rest & _ & _ & Hne & _).
  exact Hne.
Defined.

Lemma onServeNotes_not_acceptable_witness :
  ∃ text, (onServeNotes two_newer (Some "1.0.0") TextPlain ∅).2 = Sent (NotesText text)
    ∧ (onServeNotes two_newer (Some "1.0.0") NotAcceptable ∅).2
      = Next (ReferenceError "releaseNotes").
Proof.
  eexists.
  assert ((onServeNotes two_newer (Some "1.0.0") TextPlain ∅).2
          = Sent (NotesText "CB")) as Htext by (vm_compute; reflexivity).
  split.
  - exact Htext.
  - exact (proj2 (onServeNotes_not_acceptable (deps := sample_deps)
                    (nuts_deps := sample_nuts_deps) two_newer (Some "1.0.0") ∅)
             _ Htext).
Defined.

Lemma onDownload_no_platform_witness :
  (falsy_str (dl_filename plain_request) = true
   ∧ falsy_str (dl_platform plain_request) = true)
  ∧ onDownload scenario plain_request ∅
    = (∅, Throw (Error "No platform specified and impossible to detect one")).
Proof.
  split; [split; reflexivity|].
  apply (onDownload_no_platform (deps := sample_deps)
           (handler_deps := sample_handler_deps) scenario plain_request ∅);
    reflexivity.
Defined.

Lemma onDownload_by_filename_witness :
  ∃ v a, (dl_filename file_request = Some "app-darwin.dmg"
          ∧ (onDownload scenario file_request ∅).2 = Normal (v, a))
    ∧ tag v = "2.0.0" ∧ a_filename a = "app-darwin.dmg"
    ∧ download_channel_ok file_request v ∧ download_tag_ok file_request v.
Proof.
  eexists _, _.
  match goal with |- (_ ∧ ?Q) ∧ _ => assert Q as Hva by (vm_compute; reflexivity) end.
  split; [split; [reflexivity | exact Hva]|]. split; [reflexivity|].
  destruct (onDownload_by_filename (deps := sample_deps)
              (handler_deps := sample_handler_deps) scenario file_request
              "app-darwin.dmg" ∅ _ _ eq_refl ltac:(discriminate) Hva)
    as (Hname & _ & vs & k1 & k2 & _ & _ & Hc & Ht & _).
  by split_and!.
Defined.

Lemma onUpdate_ignores_suffix_witness :
  let req1 := {| fullUrl := "http://host/update/osx_64/1.0.0-beta.3";
                 params_platform := "osx_64"; params_channel := None;
                 params_version := "1.0.0-beta.3"; query_filetype := None |} in
  let req2 := {| fullUrl := "http://host/update/osx_64/1.0.0";
                 params_platform := "osx_64"; params_channel := None;
                 params_version := "1.0.0"; query_filetype := None |} in
  (onUpdate two_newer req1 ∅).1 = (onUpdate two_newer req2 ∅).1
  ∧ same_answer (onUpdate two_newer req1 ∅).2 (onUpdate two_newer req2 ∅).2.
Proof.
  intros req1 req2.
  exact (onUpdate_ignores_suffix (deps := sample_deps) (nuts_deps := sample_nuts_deps)
           two_newer req1 req2 "1.0.0" "beta.3" ∅ eq_refl eq_refl eq_refl eq_refl).
Defined.

End MoreExamples.

End MoreFacts.
